(** * eslint-plugin-simple-tailwindcss: class-list formatter and extraction engine

    A shallow embedding of [src/utils/class-processor.ts] (the formatter) and
    of [src/rules/sort-classes.ts] (the regex-driven extraction engine),
    together with the properties of the specification that they decide.
    The rule is modelled in its current form, the one that delimits the
    argument region with [findMatchingParenIndex].

    JavaScript strings are sequences of UTF-16 code units; they are modelled
    as [list N].  The host facilities the code calls but does not define
    (the regular-expression engine, [String.prototype.localeCompare] and
    [twMerge] of tailwind-merge) are parameters of the development. *)

From Stdlib Require Import ZArith NArith List Lia Ascii String Bool.
From stdpp Require Import base option list gmap sorting.
Import ListNotations.

(** ** JavaScript strings *)

Abbreviation jsstring := (list N).

Module JsString.

(** A string literal of the source, as code units (ASCII literals only). *)
Definition js (s : string) : jsstring :=
  map N_of_ascii (list_ascii_of_string s).

(** The code units matched by [\s] and stripped by [trim]: WhiteSpace and
    LineTerminator of ECMA-262. *)
Definition isWhiteSpace (c : N) : bool :=
  ((9 <=? c) && (c <=? 13) || (c =? 32) || (c =? 160) || (c =? 5760)
   || (8192 <=? c) && (c <=? 8202) || (c =? 8232) || (c =? 8233)
   || (c =? 8239) || (c =? 8287) || (c =? 12288) || (c =? 65279))%N.

Fixpoint dropWhile (p : N -> bool) (s : jsstring) : jsstring :=
  match s with
  | [] => []
  | c :: r => if p c then dropWhile p r else s
  end.

Definition trimStart (s : jsstring) : jsstring := dropWhile isWhiteSpace s.
Definition trimEnd (s : jsstring) : jsstring :=
  rev (dropWhile isWhiteSpace (rev s)).
(** [String.prototype.trim]. *)
Definition trim (s : jsstring) : jsstring := trimEnd (trimStart s).

(** [s.replace(/\s+/, ' ')]: the regular expression carries no [g] flag, so
    only the leftmost match (a maximal run, [+] being greedy) is replaced. *)
Fixpoint replaceFirstWhitespaceRun (s : jsstring) : jsstring :=
  match s with
  | [] => []
  | c :: r =>
      if isWhiteSpace c then 32%N :: dropWhile isWhiteSpace r
      else c :: replaceFirstWhitespaceRun r
  end.

(** [s.split(sep)] for a one-code-unit separator. *)
Fixpoint split (sep : N) (s : jsstring) : list jsstring :=
  match s with
  | [] => [[]]
  | c :: r =>
      if (c =? sep)%N then [] :: split sep r
      else match split sep r with
           | h :: t => (c :: h) :: t
           | [] => [[c]]
           end
  end.

(** [Boolean(s)] of a string: the empty string is falsy. *)
Definition truthy (s : jsstring) : bool :=
  match s with [] => false | _ => true end.

(** [parts.join(sep)]. *)
Fixpoint join (sep : jsstring) (parts : list jsstring) : jsstring :=
  match parts with
  | [] => []
  | [p] => p
  | p :: rest => p ++ sep ++ join sep rest
  end.

(** [s.startsWith(p)]. *)
Fixpoint startsWith (s p : jsstring) : bool :=
  match p, s with
  | [], _ => true
  | _ :: _, [] => false
  | a :: p', b :: s' => (a =? b)%N && startsWith s' p'
  end.

(** [s.slice(start, end)] for non-negative arguments. *)
Definition slice (s : jsstring) (start stop : nat) : jsstring :=
  take (stop - start) (drop start s).

(** [s.slice(start)]. *)
Definition sliceFrom (s : jsstring) (start : nat) : jsstring := drop start s.

(** [s.indexOf(sub)]: the first position at which [sub] occurs, [None] for
    the [-1] of JavaScript. *)
Fixpoint indexOfFrom (s sub : jsstring) (i : nat) : option nat :=
  if startsWith s sub then Some i
  else match s with
       | [] => None
       | _ :: r => indexOfFrom r sub (S i)
       end.
Definition indexOf (s sub : jsstring) : option nat := indexOfFrom s sub 0.

Definition eqb (a b : jsstring) : bool := bool_decide (a = b).

End JsString.
Import JsString.

(** ** The regular-expression host interface

    [new RegExp(source)], [RegExp.prototype.exec] and [RegExp.prototype.test]
    are built-ins.  Following ECMA-262, a compiled pattern is a matcher that
    is tried at one position of the input and either fails or reports how
    many code units it consumed and what its capture groups hold; the search
    for the leftmost match ([RegExpBuiltinExec]) and the [lastIndex]
    protocol of global expressions are modelled here on top of it. *)

(** The error thrown by [new RegExp] on an invalid pattern. *)
Record SyntaxError := { message : jsstring }.

(** The result of a matcher at a position: the number of code units matched
    and, for each capture group (group 1 first), where it matched in the
    input as (start, length), or [None] when it did not participate. *)
Record MatchState := {
  matchedLength : nat;
  captures : list (option (nat * nat))
}.

(** [RegExp_new] is [new RegExp(source)] and [new RegExp(source, 'g')]: the
    flag does not change which sources are valid nor what matches, only the
    [lastIndex] protocol of [exec]. *)
Class RegExpEngine := {
  RegExp : Type;
  RegExp_new : jsstring -> SyntaxError + RegExp;
  matcher : RegExp -> jsstring -> nat -> option MatchState
}.

(** What [exec] returns: [index], element 0 (the whole match) and element 1
    (capture group 1, [None] for [undefined]).  [group1Index] records where
    group 1 matched in the input; JavaScript exposes it only under the [d]
    flag and the code never reads it. *)
Record RegExpExecArray := {
  index : nat;
  match0 : jsstring;
  match1 : option jsstring;
  group1Index : option nat
}.

Section Exec.
Context `{RegExpEngine}.

Fixpoint search (r : RegExp) (s : jsstring) (tries : nat) (i : nat)
  : option (nat * MatchState) :=
  match tries with
  | 0 => None
  | S tries' =>
      match matcher r s i with
      | Some m => Some (i, m)
      | None => search r s tries' (S i)
      end
  end.

Definition group1 (m : MatchState) : option (nat * nat) :=
  match captures m with
  | c :: _ => c
  | [] => None
  end.

Definition toExecArray (s : jsstring) (i : nat) (m : MatchState)
  : RegExpExecArray :=
  {| index := i;
     match0 := slice s i (i + matchedLength m);
     match1 := (fun c => slice s (fst c) (fst c + snd c)) <$> group1 m;
     group1Index := fst <$> group1 m |}.

(** [r.exec(s)] for an expression created with the [g] flag whose
    [lastIndex] is [lastIndex]: the array, or [None] for [null], and the
    [lastIndex] afterwards (reset to 0 on failure). *)
Definition exec (r : RegExp) (s : jsstring) (lastIndex : nat)
  : option RegExpExecArray * nat :=
  if length s <? lastIndex then (None, 0)
  else match search r s (S (length s - lastIndex)) lastIndex with
       | Some (i, m) => (Some (toExecArray s i m), i + matchedLength m)
       | None => (None, 0)
       end.

(** [r.test(s)] for an expression without the [g] flag: the search starts
    at 0 and [lastIndex] is left alone. *)
Definition test (r : RegExp) (s : jsstring) : bool :=
  match search r s (S (length s)) 0 with
  | Some _ => true
  | None => false
  end.

End Exec.

(** ** The formatter ([src/utils/class-processor.ts]) *)

Record TailwindGroupDefinition := {
  name : jsstring;
  matchers : list jsstring
}.

Record NormalizedToken := {
  important : bool;
  base : jsstring;
  groupWeight : nat
}.

(** [CompiledGroupDefinition], over the host's type of compiled patterns;
    [cname] is its field [name]. *)
Record CompiledGroupDefinition (RegExp : Type) := {
  cname : jsstring;
  weight : nat;
  regexes : list RegExp
}.
Arguments cname {RegExp} _.
Arguments weight {RegExp} _.
Arguments regexes {RegExp} _.

Record FormatterConfig := {
  groupDefinitions : option (list TailwindGroupDefinition)
}.

(** Code that may throw: [inl] carries the thrown error. *)
Definition bindThrow {E A B} (x : E + A) (f : A -> E + B) : E + B :=
  match x with
  | inl e => inl e
  | inr a => f a
  end.
Notation "'try' x <- e1 ; e2" := (bindThrow e1 (fun x => e2))
  (at level 10, x name, e1 at level 100, e2 at level 200, only parsing).

Module ClassProcessor.

Definition removeImportantPrefix (token : jsstring) : bool * jsstring :=
  if startsWith token (js "!") then (true, sliceFrom token 1)
  else (false, token).

(** [value.trim().replace(WHITESPACE_RE, ' ')] with [WHITESPACE_RE = /\s+/]. *)
Definition collapseWhitespace (value : jsstring) : jsstring :=
  replaceFirstWhitespaceRun (trim value).

(** The loop of [stripVariants]: [todo] holds [token[0..i]] with [token[i]]
    first, [suffix] is [token.slice(i + 1)]; [Some] is the early return. *)
Fixpoint stripVariantsLoop (todo : jsstring) (depth : nat)
    (suffix : jsstring) : option jsstring :=
  match todo with
  | [] => None
  | char :: todo' =>
      if (char =? 93)%N (* ] *) then
        stripVariantsLoop todo' (depth + 1) (char :: suffix)
      else if (char =? 91)%N (* [ *) then
        stripVariantsLoop todo' (if 0 <? depth then depth - 1 else depth)
          (char :: suffix)
      else if (char =? 58)%N (* : *) && (depth =? 0) then Some suffix
      else stripVariantsLoop todo' depth (char :: suffix)
  end.

Definition stripVariants (token : jsstring) : jsstring :=
  match stripVariantsLoop (rev token) 0 [] with
  | Some b => b
  | None => token
  end.

Section WithEngine.
Context `{RegExpEngine}.


(** [definition.matchers.map(pattern => new RegExp(pattern))] *)
Fixpoint compileMatchers (patterns : list jsstring)
  : SyntaxError + list RegExp :=
  match patterns with
  | [] => inr []
  | pattern :: rest =>
      try r <- RegExp_new pattern;
      try rs <- compileMatchers rest;
      inr (r :: rs)
  end.

(** [definitions.map((definition, index) => ...)], from [index] on. *)
Fixpoint compileFrom (index : nat) (definitions : list TailwindGroupDefinition)
  : SyntaxError + list (CompiledGroupDefinition RegExp) :=
  match definitions with
  | [] => inr []
  | definition :: rest =>
      try rs <- compileMatchers (matchers definition);
      try gs <- compileFrom (S index) rest;
      inr ({| cname := name definition; weight := index; regexes := rs |}
           :: gs)
  end.

Definition compileGroupDefinitions
    (definitions : list TailwindGroupDefinition)
  : SyntaxError + list (CompiledGroupDefinition RegExp) :=
  compileFrom 0 definitions.

(** [group.regexes.some(regex => regex.test(token))] *)
Definition groupMatches (token : jsstring) (group : CompiledGroupDefinition RegExp)
  : bool :=
  existsb (fun regex => test regex token) (regexes group).

Fixpoint resolveLoop (token : jsstring)
    (groups : list (CompiledGroupDefinition RegExp)) : option nat :=
  match groups with
  | [] => None
  | group :: rest =>
      if groupMatches token group then Some (weight group)
      else resolveLoop token rest
  end.

Definition resolveGroupWeight (token : jsstring)
    (compiledGroups : list (CompiledGroupDefinition RegExp)) : nat :=
  match resolveLoop token compiledGroups with
  | Some w => w
  | None => length compiledGroups
  end.

(** The object [normalizeToken] builds on a cache miss. *)
Definition normalized (token : jsstring)
    (compiledGroups : list (CompiledGroupDefinition RegExp)) : NormalizedToken :=
  let importantStrip := removeImportantPrefix token in
  let base := stripVariants (snd importantStrip) in
  let weight := resolveGroupWeight base compiledGroups in
  {| important := fst importantStrip; base := base; groupWeight := weight |}.

(** The cache is a [Map<string, NormalizedToken>] that the caller owns
    and every call may extend: it is threaded through. *)
Definition normalizeToken (token : jsstring)
    (compiledGroups : list (CompiledGroupDefinition RegExp))
    (cache : gmap jsstring NormalizedToken)
  : NormalizedToken * gmap jsstring NormalizedToken :=
  match cache !! token with
  | Some cached => (cached, cache)
  | None =>
      let n := normalized token compiledGroups in
      (n, <[token := n]> cache)
  end.

Section WithHost.
(** [a.localeCompare(b)] and [twMerge] of tailwind-merge. *)
Variable localeCompare : jsstring -> jsstring -> Z.
Variable twMerge : jsstring -> jsstring.

Definition compareClasses (a b : jsstring)
    (compiledGroups : list (CompiledGroupDefinition RegExp))
    (cache : gmap jsstring NormalizedToken)
  : Z * gmap jsstring NormalizedToken :=
  let '(normalizedA, cache) := normalizeToken a compiledGroups cache in
  let '(normalizedB, cache) := normalizeToken b compiledGroups cache in
  if negb (groupWeight normalizedA =? groupWeight normalizedB) then
    ((Z.of_nat (groupWeight normalizedA)
      - Z.of_nat (groupWeight normalizedB))%Z, cache)
  else
    let baseComparison :=
      localeCompare (base normalizedA) (base normalizedB) in
    if negb (baseComparison =? 0)%Z then (baseComparison, cache)
    else if negb (Bool.eqb (important normalizedA) (important normalizedB))
    then ((if important normalizedA then 1 else -1)%Z, cache)
    else (localeCompare a b, cache).

(** [Array.prototype.sort] with a comparator that owns state.  The
    order in which the host calls the comparator is not specified; the
    result is, for a consistent comparator: the stable sorted
    permutation, built here by insertion from the left. *)
Fixpoint sortInsert {S} (compare : jsstring -> jsstring -> S -> Z * S)
    (x : jsstring) (sorted : list jsstring) (st : S)
  : list jsstring * S :=
  match sorted with
  | [] => ([x], st)
  | y :: rest =>
      let '(c, st) := compare x y st in
      if (c <? 0)%Z then (x :: y :: rest, st)
      else let '(rest', st) := sortInsert compare x rest st in
           (y :: rest', st)
  end.

Fixpoint sortFrom {S} (compare : jsstring -> jsstring -> S -> Z * S)
    (todo sorted : list jsstring) (st : S) : list jsstring * S :=
  match todo with
  | [] => (sorted, st)
  | x :: todo' =>
      let '(sorted', st) := sortInsert compare x sorted st in
      sortFrom compare todo' sorted' st
  end.

Definition sort {S} (compare : jsstring -> jsstring -> S -> Z * S)
    (tokens : list jsstring) (st : S) : list jsstring * S :=
  sortFrom compare tokens [] st.

(** [null] is [None]. *)
Definition formatWithGroups (value : jsstring)
    (compiledGroups : list (CompiledGroupDefinition RegExp)) : option jsstring :=
  let collapsed := collapseWhitespace value in
  if negb (truthy collapsed) then None
  else
    let tokens := List.filter truthy (split 32 collapsed) in
    if length tokens <=? 1 then
      if eqb collapsed value then None else Some collapsed
    else
      let cache : gmap jsstring NormalizedToken := ∅ in
      let sortedTokens :=
        fst (sort (fun a b => compareClasses a b compiledGroups)
               tokens cache) in
      let merged :=
        collapseWhitespace (twMerge (join (js " ") sortedTokens)) in
      if eqb merged collapsed then
        if eqb collapsed value then None else Some collapsed
      else Some merged.

(** [defaultCompiledGroups] is compiled once, when the module loads;
    the table itself is a parameter here. *)
Variable defaultGroupDefinitions : list TailwindGroupDefinition.

Definition defaultCompiledGroups
  : SyntaxError + list (CompiledGroupDefinition RegExp) :=
  compileGroupDefinitions defaultGroupDefinitions.

Definition createClassFormatter (config : option FormatterConfig)
  : SyntaxError + (jsstring -> option jsstring) :=
  try compiledGroups <-
    match config with
    | Some {| groupDefinitions := Some defs |} =>
        if 0 <? length defs then compileGroupDefinitions defs
        else defaultCompiledGroups
    | _ => defaultCompiledGroups
    end;
  inr (fun value => formatWithGroups value compiledGroups).

Definition formatClassString (value : jsstring)
    (config : option FormatterConfig) : SyntaxError + option jsstring :=
  try formatter <- createClassFormatter config;
  inr (formatter value).

End WithHost.
End WithEngine.
End ClassProcessor.

(** ** The extraction engine ([src/rules/sort-classes.ts]) *)

Record RangeMatch := {
  range : nat * nat;
  value : jsstring
}.

Record StringLiteral := {
  lit_value : jsstring;
  lit_start : nat;
  lit_end : nat
}.

(** A [classRegex] entry: a single pattern or an (outer, inner) pair. *)
Inductive ClassRegexEntry :=
| Single (outer : jsstring)
| Pair (outer inner : jsstring).

Module SortClasses.

Definition isQuote (c : N) : bool :=
  ((c =? 34) || (c =? 39) || (c =? 96))%N.

(** Where the scanner of [extractStringLiterals] stands: between literals,
    or inside one opened by [quote] at [start], with the characters read
    so far and the previous character [text[i - 1]]. *)
Inductive LiteralScan :=
| Between
| Inside (quote : N) (start : nat) (value : jsstring) (prev : N).

(** Both loops of [extractStringLiterals] as one scan: [rest] is
    [text.slice(i)]. *)
Fixpoint extractLoop (rest : jsstring) (i : nat) (scan : LiteralScan)
    (literals : list StringLiteral) : list StringLiteral :=
  match rest with
  | [] => literals
  | char :: rest' =>
      match scan with
      | Between =>
          if isQuote char then
            extractLoop rest' (i + 1) (Inside char i [] char) literals
          else extractLoop rest' (i + 1) Between literals
      | Inside quote start value prev =>
          if (char =? quote)%N && negb (prev =? 92)%N then
            extractLoop rest' (i + 1) Between
              (literals ++ [{| lit_value := value; lit_start := start + 1;
                               lit_end := i |}])
          else
            extractLoop rest' (i + 1)
              (Inside quote start (value ++ [char]) char) literals
      end
  end.

Definition extractStringLiterals (text : jsstring) : list StringLiteral :=
  extractLoop text 0 Between [].

Definition findCaptureOffset (fullMatch capture : jsstring) : nat :=
  match indexOf fullMatch capture with
  | Some index => index
  | None => 0
  end.

(** The loop of [findMatchingParenIndex]: [rest] is [text.slice(i)];
    [None] is the [-1] of the source. *)
Fixpoint findMatchingLoop (rest : jsstring) (i depth : nat)
    (inString : option N) (escaped : bool) : option nat :=
  match rest with
  | [] => None
  | ch :: rest' =>
      match inString with
      | Some q =>
          let inString' :=
            if negb escaped && (ch =? q)%N then None else inString in
          let escaped' := negb escaped && (ch =? 92)%N in
          findMatchingLoop rest' (i + 1) depth inString' escaped'
      | None =>
          if isQuote ch then
            findMatchingLoop rest' (i + 1) depth (Some ch) false
          else if (ch =? 40)%N then
            findMatchingLoop rest' (i + 1) (depth + 1) None escaped
          else if (ch =? 41)%N then
            if depth - 1 =? 0 then Some i
            else findMatchingLoop rest' (i + 1) (depth - 1) None escaped
          else findMatchingLoop rest' (i + 1) depth None escaped
      end
  end.

Definition findMatchingParenIndex (text : jsstring) (openParenIndex : nat)
  : option nat :=
  findMatchingLoop (drop (openParenIndex + 1) text) (openParenIndex + 1) 1
    None false.

Section WithEngine.
Context `{RegExpEngine}.

Definition createRegExp (source : jsstring) : SyntaxError + RegExp :=
  RegExp_new source.

(** The [while] loop of [processInnerMatches].  [processedRanges] is the
    [Set] of keys [`${start}:${end}`], one key per pair of numbers;
    [emitted] collects the calls of [onMatch] in order.  The loop ends
    when [exec] returns [null]; [None] means the iteration budget was
    used up first. *)
Fixpoint innerLoop (budget : nat) (target : jsstring) (regex : RegExp)
    (containerOffset : nat) (text : jsstring) (lastIndex : nat)
    (processedRanges : gset (nat * nat)) (matched : bool)
    (emitted : list RangeMatch) : option (bool * list RangeMatch) :=
  match budget with
  | 0 => None
  | S budget' =>
      match exec regex target lastIndex with
      | (None, _) => Some (matched, emitted)
      | (Some innerMatch, lastIndex') =>
          let innerFull := match0 innerMatch in
          if negb (truthy innerFull) then
            innerLoop budget' target regex containerOffset text
              (lastIndex' + 1) processedRanges matched emitted
          else
            let innerValue := default innerFull (match1 innerMatch) in
            let innerOffset :=
              index innerMatch + findCaptureOffset innerFull innerValue in
            let start := containerOffset + innerOffset in
            let stop := start + length innerValue in
            if bool_decide ((start, stop) ∈ processedRanges) then
              innerLoop budget' target regex containerOffset text
                lastIndex' processedRanges matched emitted
            else
              innerLoop budget' target regex containerOffset text
                lastIndex' ({[ (start, stop) ]} ∪ processedRanges) true
                (emitted ++ [{| range := (start, stop);
                                value := slice text start stop |}])
      end
  end.

(** Every iteration moves [lastIndex] forward and [exec] returns [null]
    once it is past the end: [length target + 2] iterations are enough. *)
Definition processInnerMatches (target : jsstring) (regex : RegExp)
    (containerOffset : nat) (text : jsstring)
  : option (bool * list RangeMatch) :=
  innerLoop (length target + 2) target regex containerOffset text 0 ∅
    false [].

(** What is emitted for one argument region [container], which starts at
    [containerOffset] in [text] (the end of the body of the loop of
    [applyRegexEntry]). *)
Definition regionEmits (text : jsstring) (innerRegex : option RegExp)
    (containerOffset : nat) (container : jsstring)
  : option (list RangeMatch) :=
  match innerRegex with
  | Some regex =>
      snd <$> processInnerMatches container regex containerOffset text
  | None =>
      let literals := extractStringLiterals container in
      if 0 <? length literals then
        Some (map (fun lit =>
                     {| range := (containerOffset + lit_start lit,
                                  containerOffset + lit_end lit);
                        value := lit_value lit |}) literals)
      else
        let value := container in
        let start := containerOffset in
        let stop := start + length value in
        Some [{| range := (start, stop); value := slice text start stop |}]
  end.

(** What one outer match emits (the body of the loop of [applyRegexEntry]
    after [matchedText] was found non-empty). *)
Definition outerMatchEmits (text : jsstring) (innerRegex : option RegExp)
    (outerMatch : RegExpExecArray) : option (list RangeMatch) :=
  let matchedText := match0 outerMatch in
  match indexOf matchedText (js "(") with
  | None => Some []
  | Some openRel =>
      let openAbs := index outerMatch + openRel in
      match findMatchingParenIndex text openAbs with
      | None => Some []
      | Some closeAbs =>
          let containerOffset := openAbs + 1 in
          let container := slice text containerOffset closeAbs in
          regionEmits text innerRegex containerOffset container
      end
  end.

Fixpoint outerLoop (budget : nat) (text : jsstring) (outerRegex : RegExp)
    (innerRegex : option RegExp) (lastIndex : nat)
    (emitted : list RangeMatch) : option (list RangeMatch) :=
  match budget with
  | 0 => None
  | S budget' =>
      match exec outerRegex text lastIndex with
      | (None, _) => Some emitted
      | (Some outerMatch, lastIndex') =>
          if negb (truthy (match0 outerMatch)) then
            outerLoop budget' text outerRegex innerRegex (lastIndex' + 1)
              emitted
          else
            match outerMatchEmits text innerRegex outerMatch with
            | None => None
            | Some ms =>
                outerLoop budget' text outerRegex innerRegex lastIndex'
                  (emitted ++ ms)
            end
      end
  end.

(** [applyRegexEntry(sourceCode, entry, onMatch)] with [text] for
    [sourceCode.getText()]: the matches handed to [onMatch], in order.
    [inl] is an error thrown by [createRegExp]; [None] inside [inr]
    means the iteration budget was used up. *)
Definition applyRegexEntry (text : jsstring) (entry : ClassRegexEntry)
  : SyntaxError + option (list RangeMatch) :=
  try outerRegex <-
    createRegExp (match entry with Single o => o | Pair o _ => o end);
  let innerPattern :=
    match entry with Single _ => None | Pair _ i => Some i end in
  try innerRegex <-
    match innerPattern with
    | Some p => if truthy p then
                  try r <- createRegExp p; inr (Some r)
                else inr None
    | None => inr None
    end;
  inr (outerLoop (length text + 2) text outerRegex innerRegex 0 []).

End WithEngine.
End SortClasses.

(** ** Reporting ([handleLiteralValue] and the passes over [classRegex]) *)

(** A call of [context.report]: the range whose location is reported and
    that the fix replaces, and the replacement text. *)
Record Report := {
  reportRange : nat * nat;
  fixText : jsstring
}.

(** What a run of the rule has done so far: the keys of [reportedRanges]
    (one per pair of numbers) and the reports, in order. *)
Record RuleState := {
  reportedRanges : gset (nat * nat);
  reports : list Report
}.

Module Rule.

Definition handleLiteralValue (formatClassList : jsstring -> option jsstring)
    (range : nat * nat) (value : jsstring) (st : RuleState) : RuleState :=
  match formatClassList value with
  | None => st
  | Some formatted =>
      if negb (truthy formatted) || eqb formatted value then st
      else if bool_decide (range ∈ reportedRanges st) then st
      else {| reportedRanges := {[ range ]} ∪ reportedRanges st;
              reports := reports st
                         ++ [{| reportRange := range; fixText := formatted |}]
           |}
  end.

(** [rawValue] is optional: [None] is [undefined]. *)
Definition visitLiteralRange (formatClassList : jsstring -> option jsstring)
    (range : nat * nat) (rawValue : option jsstring) (st : RuleState)
  : RuleState :=
  match rawValue with
  | Some v =>
      if truthy v then handleLiteralValue formatClassList range v st else st
  | None => st
  end.

(** The callback handed to [applyRegexEntry], run on what it emits. *)
Definition handleMatches (formatClassList : jsstring -> option jsstring)
    (matches : list RangeMatch) (st : RuleState) : RuleState :=
  fold_left (fun st m => handleLiteralValue formatClassList (range m)
                           (value m) st)
    matches st.

(** How a pass over [classRegex] ends: all entries done, an error thrown
    by [createRegExp] (the reports made before it stay), or the iteration
    budget of the model used up. *)
Inductive PassOutcome :=
| Completed
| Threw (e : SyntaxError)
| OutOfBudget.

Section WithEngine.
Context `{RegExpEngine}.

(** [classRegex.forEach(entry => applyRegexEntry(sourceCode, entry, ...))],
    the body of [Program:exit] and of [VElement:exit]. *)
Fixpoint applyEntries (text : jsstring) (classRegex : list ClassRegexEntry)
    (formatClassList : jsstring -> option jsstring) (st : RuleState)
  : PassOutcome * RuleState :=
  match classRegex with
  | [] => (Completed, st)
  | entry :: rest =>
      match SortClasses.applyRegexEntry text entry with
      | inl e => (Threw e, st)
      | inr None => (OutOfBudget, st)
      | inr (Some ms) =>
          applyEntries text rest formatClassList
            (handleMatches formatClassList ms st)
      end
  end.

End WithEngine.

(** The state [create(context)] starts from. *)
Definition create : RuleState := {| reportedRanges := ∅; reports := [] |}.

End Rule.

(** ** A model of the built-in regular expressions

    The theorems about the code hold for every [RegExpEngine].  To evaluate
    the code on the patterns of its own tables and tests, this module gives
    one engine: a parser and a backtracking matcher for the fragment of the
    ECMA-262 pattern language (without flags [i], [m], [s], [u]) made of
    characters, identity and control escapes, [\d \w \s] and their
    complements, [.], character classes, capturing and non-capturing groups,
    look-ahead, alternation, the quantifiers [* + ?] (greedy and lazy) and
    the assertions [^ $ \b \B].  Braced quantifiers, back-references, named
    groups, look-behind and [\x \u \c \0] escapes are outside the fragment;
    the parser rejects them although the built-in accepts them. *)

Module MiniRegExp.

Inductive ClassItem :=
| One (c : N)
| Range (lo hi : N)
| Digit (complement : bool)
| Word (complement : bool)
| Space (complement : bool).

Inductive Regex :=
| Empty
| Char (c : N)
| AnyChar
| Class (negated : bool) (items : list ClassItem)
| Seq (a b : Regex)
| Alt (a b : Regex)
| Repeat (min : nat) (max : option nat) (greedy : bool) (body : Regex)
| Group (n : nat) (body : Regex)
| Lookahead (negative : bool) (body : Regex)
| InputStart
| InputEnd
| WordBoundary (negative : bool).

Definition isDigit (c : N) : bool := ((48 <=? c) && (c <=? 57))%N.
Definition isWordChar (c : N) : bool :=
  ((97 <=? c) && (c <=? 122) || (65 <=? c) && (c <=? 90) || isDigit c
   || (c =? 95))%N.
Definition isLineTerminator (c : N) : bool :=
  ((c =? 10) || (c =? 13) || (c =? 8232) || (c =? 8233))%N.

Definition itemMatches (c : N) (item : ClassItem) : bool :=
  match item with
  | One d => (c =? d)%N
  | Range lo hi => ((lo <=? c) && (c <=? hi))%N
  | Digit complement => xorb complement (isDigit c)
  | Word complement => xorb complement (isWordChar c)
  | Space complement => xorb complement (isWhiteSpace c)
  end.

(** The capture groups (numbered from 1) inside a term. *)
Fixpoint groupsOf (r : Regex) : list nat :=
  match r with
  | Seq a b | Alt a b => groupsOf a ++ groupsOf b
  | Repeat _ _ _ body | Lookahead _ body => groupsOf body
  | Group n body => n :: groupsOf body
  | _ => []
  end.

(** The matcher state of ECMA-262: an end index and the captures, each
    (start, length). *)
Record State := {
  endIndex : nat;
  caps : list (option (nat * nat))
}.

Definition setCapture (n : nat) (v : option (nat * nat))
    (cs : list (option (nat * nat))) : list (option (nat * nat)) :=
  <[ n - 1 := v ]> cs.

Definition clearCaptures (ns : list nat) (cs : list (option (nat * nat)))
  : list (option (nat * nat)) :=
  fold_right (fun n acc => setCapture n None acc) cs ns.

Definition step (input : jsstring) (x : State) (p : N -> bool)
    (c : State -> option State) : option State :=
  match input !! endIndex x with
  | Some ch =>
      if p ch then c {| endIndex := endIndex x + 1; caps := caps x |}
      else None
  | None => None
  end.

Definition isWordAt (input : jsstring) (i : nat) : bool :=
  match input !! i with
  | Some ch => isWordChar ch
  | None => false
  end.

(** [matchTerm input r x c]: the matcher of [r] applied to the state [x]
    and the continuation [c].  The repeat loop follows RepeatMatcher of
    ECMA-262; each of its rounds either uses up one of the [min] mandatory
    iterations or consumes input, which bounds their number. *)
Fixpoint matchTerm (input : jsstring) (r : Regex) (x : State)
    (c : State -> option State) {struct r} : option State :=
  match r with
  | Empty => c x
  | Char d => step input x (fun ch => (ch =? d)%N) c
  | AnyChar => step input x (fun ch => negb (isLineTerminator ch)) c
  | Class negated items =>
      step input x
        (fun ch => xorb negated (existsb (itemMatches ch) items)) c
  | Seq a b => matchTerm input a x (fun y => matchTerm input b y c)
  | Alt a b =>
      match matchTerm input a x c with
      | Some z => Some z
      | None => matchTerm input b x c
      end
  | Repeat min max greedy body =>
      (fix rounds (budget min : nat) (max : option nat) (x : State)
           {struct budget} : option State :=
         match budget with
         | 0 => None
         | S budget' =>
             match max with
             | Some 0 => c x
             | _ =>
                 let d := fun y : State =>
                   if (min =? 0) && (endIndex y =? endIndex x) then None
                   else rounds budget' (min - 1) (Nat.pred <$> max) y in
                 let xr := {| endIndex := endIndex x;
                              caps := clearCaptures (groupsOf body) (caps x)
                           |} in
                 if negb (min =? 0) then matchTerm input body xr d
                 else if negb greedy then
                   match c x with
                   | Some z => Some z
                   | None => matchTerm input body xr d
                   end
                 else
                   match matchTerm input body xr d with
                   | Some z => Some z
                   | None => c x
                   end
             end
         end) (min + (length input - endIndex x) + 1) min max x
  | Group n body =>
      matchTerm input body x
        (fun y => c {| endIndex := endIndex y;
                       caps := setCapture n
                                 (Some (endIndex x, endIndex y - endIndex x))
                                 (caps y) |})
  | Lookahead negative body =>
      match matchTerm input body x Some with
      | Some y =>
          if negative then None
          else c {| endIndex := endIndex x; caps := caps y |}
      | None => if negative then c x else None
      end
  | InputStart => if endIndex x =? 0 then c x else None
  | InputEnd => if endIndex x =? length input then c x else None
  | WordBoundary negative =>
      let a := match endIndex x with
               | 0 => false
               | S i => isWordAt input i
               end in
      let b := isWordAt input (endIndex x) in
      if xorb negative (xorb a b) then c x else None
  end.

(** *** Parsing a pattern source *)

(** A parse yields the term, the rest of the source and the number of the
    next capture group, or the reason of the syntax error. *)
Definition Parsed (A : Type) : Type := (string + A * jsstring * nat)%type.

(** The item a backslash escape stands for, inside or outside a class. *)
Definition escapeItem (c : N) : string + ClassItem :=
  if (c =? 100)%N then inr (Digit false)
  else if (c =? 68)%N then inr (Digit true)
  else if (c =? 119)%N then inr (Word false)
  else if (c =? 87)%N then inr (Word true)
  else if (c =? 115)%N then inr (Space false)
  else if (c =? 83)%N then inr (Space true)
  else if (c =? 116)%N then inr (One 9)
  else if (c =? 110)%N then inr (One 10)
  else if (c =? 118)%N then inr (One 11)
  else if (c =? 102)%N then inr (One 12)
  else if (c =? 114)%N then inr (One 13)
  else if isDigit c || (c =? 120)%N || (c =? 117)%N || (c =? 99)%N
          || (c =? 107)%N
  then inl "Escape outside the modelled fragment"%string
  else inr (One c).

(** One class atom: a character or an escape ([\b] is backspace here). *)
Definition classAtom (s : jsstring) : string + ClassItem * jsstring :=
  match s with
  | [] => inl "Unterminated character class"%string
  | 92%N :: [] => inl "\ at end of pattern"%string
  | 92%N :: c :: rest =>
      if (c =? 98)%N then inr (One 8, rest)
      else try item <- escapeItem c; inr (item, rest)
  | c :: rest => inr (One c, rest)
  end.

(** The items of a class up to its closing bracket. *)
Fixpoint classItems (budget : nat) (s : jsstring) (acc : list ClassItem)
  : string + list ClassItem * jsstring :=
  match budget with
  | 0 => inl "Unterminated character class"%string
  | S budget' =>
      match s with
      | [] => inl "Unterminated character class"%string
      | 93%N :: rest => inr (acc, rest)
      | _ =>
          try a <- classAtom s;
          match snd a with
          | 45%N :: 93%N :: rest => inr (acc ++ [fst a; One 45], rest)
          | 45%N :: (_ :: _) as more =>
              try b <- classAtom more;
              match fst a, fst b with
              | One lo, One hi =>
                  if (hi <? lo)%N
                  then inl "Range out of order in character class"%string
                  else classItems budget' (snd b) (acc ++ [Range lo hi])
              | _, _ =>
                  classItems budget' (snd b) (acc ++ [fst a; One 45; fst b])
              end
          | rest => classItems budget' rest (acc ++ [fst a])
          end
      end
  end.

(** A quantifier after an atom, if any. *)
Definition quantified (r : Regex) (s : jsstring) : Regex * jsstring :=
  let greedyUnless (rest : jsstring) : bool * jsstring :=
    match rest with
    | 63%N :: rest' => (false, rest')
    | _ => (true, rest)
    end in
  match s with
  | 42%N :: rest =>
      let '(g, rest') := greedyUnless rest in (Repeat 0 None g r, rest')
  | 43%N :: rest =>
      let '(g, rest') := greedyUnless rest in (Repeat 1 None g r, rest')
  | 63%N :: rest =>
      let '(g, rest') := greedyUnless rest in (Repeat 0 (Some 1) g r, rest')
  | _ => (r, s)
  end.

Definition closeGroup (wrap : Regex -> Regex) (p : Parsed Regex)
  : Parsed Regex :=
  try x <- p;
  let '(r, rest, n) := x in
  match rest with
  | 41%N :: rest' =>
      let '(q, rest'') := quantified (wrap r) rest' in inr (q, rest'', n)
  | _ => inl "Unterminated group"%string
  end.

Fixpoint parseDisjunction (budget : nat) (s : jsstring) (n : nat)
  : Parsed Regex :=
  match budget with
  | 0 => inl "Pattern too large"%string
  | S budget' =>
      try x <- parseAlternative budget' s n;
      let '(a, rest, n') := x in
      match rest with
      | 124%N :: rest' =>
          try y <- parseDisjunction budget' rest' n';
          let '(b, rest'', n'') := y in inr (Alt a b, rest'', n'')
      | _ => inr (a, rest, n')
      end
  end
with parseAlternative (budget : nat) (s : jsstring) (n : nat)
  : Parsed Regex :=
  match budget with
  | 0 => inl "Pattern too large"%string
  | S budget' =>
      match s with
      | [] | 124%N :: _ | 41%N :: _ => inr (Empty, s, n)
      | _ =>
          try x <- parseTerm budget' s n;
          let '(t, rest, n') := x in
          try y <- parseAlternative budget' rest n';
          let '(ts, rest', n'') := y in inr (Seq t ts, rest', n'')
      end
  end
with parseTerm (budget : nat) (s : jsstring) (n : nat) : Parsed Regex :=
  match budget with
  | 0 => inl "Pattern too large"%string
  | S budget' =>
      match s with
      | [] => inr (Empty, s, n)
      | 94%N :: rest => inr (InputStart, rest, n)
      | 36%N :: rest => inr (InputEnd, rest, n)
      | 40%N :: 63%N :: 58%N :: rest =>
          closeGroup (fun r => r) (parseDisjunction budget' rest n)
      | 40%N :: 63%N :: 61%N :: rest =>
          closeGroup (Lookahead false) (parseDisjunction budget' rest n)
      | 40%N :: 63%N :: 33%N :: rest =>
          closeGroup (Lookahead true) (parseDisjunction budget' rest n)
      | 40%N :: 63%N :: _ => inl "Invalid group"%string
      | 40%N :: rest =>
          closeGroup (Group n) (parseDisjunction budget' rest (n + 1))
      | 91%N :: 94%N :: rest =>
          try x <- classItems (length rest + 1) rest [];
          let '(q, rest') := quantified (Class true (fst x)) (snd x) in
          inr (q, rest', n)
      | 91%N :: rest =>
          try x <- classItems (length rest + 1) rest [];
          let '(q, rest') := quantified (Class false (fst x)) (snd x) in
          inr (q, rest', n)
      | 46%N :: rest =>
          let '(q, rest') := quantified AnyChar rest in inr (q, rest', n)
      | 92%N :: [] => inl "\ at end of pattern"%string
      | 92%N :: c :: rest =>
          if (c =? 98)%N then inr (WordBoundary false, rest, n)
          else if (c =? 66)%N then inr (WordBoundary true, rest, n)
          else
            try item <- escapeItem c;
            let atom := match item with
                        | One d => Char d
                        | _ => Class false [item]
                        end in
            let '(q, rest') := quantified atom rest in inr (q, rest', n)
      | 42%N :: _ | 43%N :: _ | 63%N :: _ => inl "Nothing to repeat"%string
      | 123%N :: _ => inl "Brace outside the modelled fragment"%string
      | c :: rest =>
          let '(q, rest') := quantified (Char c) rest in inr (q, rest', n)
      end
  end.

(** A compiled pattern: the term and the number of its capture groups. *)
Record Compiled := {
  term : Regex;
  groupCount : nat
}.

Definition runMatcher (r : Compiled) (input : jsstring) (i : nat)
  : option MatchState :=
  match matchTerm input (term r)
          {| endIndex := i; caps := replicate (groupCount r) None |} Some
  with
  | Some y => Some {| matchedLength := endIndex y - i; captures := caps y |}
  | None => None
  end.

(** [new RegExp(source)]: the compiled pattern or the [SyntaxError]. *)
Definition compile (source : jsstring) : SyntaxError + Compiled :=
  let error (reason : string) :=
    {| message := js "Invalid regular expression: /" ++ source ++ js "/: "
                  ++ js reason |} in
  match parseDisjunction (4 * length source + 4) source 1 with
  | inl reason => inl (error reason)
  | inr (r, [], n) => inr {| term := r; groupCount := n - 1 |}
  | inr (_, _ :: _, _) => inl (error "Unmatched ')'"%string)
  end.

#[export] Instance engine : RegExpEngine := {
  RegExp := Compiled;
  RegExp_new := compile;
  matcher := runMatcher
}.

End MiniRegExp.

(** ** The built-in group table ([src/config/group-definitions.ts]) *)

Definition group (n : string) (ms : list string) : TailwindGroupDefinition :=
  {| name := js n; matchers := map js ms |}.

Definition defaultGroupDefinitions : list TailwindGroupDefinition :=
  [ group "layout"
      ["^container$"; "^box-(?:border|content)$"; "^columns-";
       "^break-(?:after|before|inside)-"; "^box-decoration-";
       "^(?:block|inline-block|inline|flex|inline-flex|grid|inline-grid|table|inline-table|table-caption|table-cell|table-column|table-row|flow-root|contents|list-item|hidden)$";
       "^float-"; "^clear-"; "^isolation-"; "^object-"; "^overflow-";
       "^overscroll-"; "^scroll-(?![mp])";
       "^(?:static|fixed|absolute|relative|sticky)$";
       "^(?:top|right|bottom|left|inset)(?:-|$)"; "^(?:start|end)(?:-|$)";
       "^z-"; "^visibility$" ];
    group "flex-grid"
      ["^flex-"; "^basis-"; "^grow-?"; "^shrink-?"; "^grid-"; "^auto-cols-";
       "^auto-rows-"; "^col-(?:auto|span|start|end)";
       "^row-(?:auto|span|start|end)"; "^gap-";
       "^place-(?:content|items|self)-"; "^justify-"; "^content-"; "^items-";
       "^self-"; "^order-" ];
    group "spacing"
      ["^-?m[trblxy]?(?:-|$)"; "^-?p[trblxy]?(?:-|$)"; "^space-[xy]-";
       "^divide-[xy]-"; "^scroll-[mp][trblxy]?(?:-|$)" ];
    group "sizing"
      ["^w-"; "^min-w-"; "^max-w-"; "^h-"; "^min-h-"; "^max-h-"; "^size-" ];
    group "typography"
      ["^font-"; "^text-"; "^tracking-"; "^leading-"; "^list-";
       "^placeholder-"; "^align-"; "^whitespace-";
       "^break-(?:normal|words|all)$"; "^hyphens-"; "^content-"; "^indent-";
       "^(?:normal-case|uppercase|lowercase|capitalize)$";
       "^subpixel-antialiased$"; "^antialiased$"; "^decoration-";
       "^underline$" ];
    group "background"
      ["^bg-"; "^from-"; "^via-"; "^to-"; "^gradient-"; "^accent-" ];
    group "borders"
      ["^border"; "^rounded"; "^outline-"; "^ring-"; "^ring-offset-" ];
    group "effects"
      ["^shadow"; "^opacity-"; "^mix-blend-"; "^bg-blend-"; "^drop-shadow-" ];
    group "filters"
      ["^blur-"; "^brightness-"; "^contrast-"; "^grayscale"; "^hue-rotate-";
       "^invert"; "^saturate-"; "^sepia"; "^backdrop-" ];
    group "tables"
      ["^table-"; "^caption-"; "^border-(?:collapse|separate)$" ];
    group "transforms"
      ["^transform(-gpu)?$"; "^origin-"; "^scale-"; "^rotate-"; "^translate-";
       "^skew-"; "^motion-(?:safe|reduce)"; "^perspective-" ];
    group "transitions"
      ["^transition"; "^duration-"; "^ease-"; "^delay-"; "^animate-" ];
    group "interactivity"
      ["^appearance-"; "^cursor-"; "^caret-"; "^pointer-events-"; "^resize-";
       "^scroll-(?:smooth|auto)$"; "^touch-"; "^select-"; "^will-change-";
       "^snap-" ];
    group "svg"
      ["^fill-"; "^stroke-" ];
    group "accessibility"
      ["^sr-only$"; "^not-sr-only$"; "^aria-"; "^data-" ] ]%string.

(** ** Instances of the host parameters

    Used to run the code on concrete inputs: a comparator on code units in
    place of [localeCompare], and [twMerge] as it behaves on a class list
    without conflicting utilities (split on white space, keep every class,
    join with single spaces). *)

Module Host.

Fixpoint codeUnitCompare (a b : jsstring) : Z :=
  match a, b with
  | [], [] => 0
  | [], _ :: _ => -1
  | _ :: _, [] => 1
  | x :: a', y :: b' =>
      if (x <? y)%N then -1
      else if (y <? x)%N then 1
      else codeUnitCompare a' b'
  end.

Fixpoint words (s current : jsstring) : list jsstring :=
  match s with
  | [] => if truthy current then [current] else []
  | c :: r =>
      if isWhiteSpace c then
        if truthy current then current :: words r [] else words r []
      else words r (current ++ [c])
  end.

Definition keepAllMerge (classList : jsstring) : jsstring :=
  join (js " ") (words classList []).



End Host.

(** ** The code on the model engine *)

Module Builtin.
Import ClassProcessor.

(** [defaultCompiledGroups] on the model engine. *)
Definition compiledGroups : list (CompiledGroupDefinition MiniRegExp.Compiled) :=
  match compileGroupDefinitions (H := MiniRegExp.engine)
          defaultGroupDefinitions with
  | inr groups => groups
  | inl _ => []
  end.

(** The formatter bound to the built-in table; [keepAllMerge] stands for
    [twMerge] unless a theorem takes [twMerge] as a parameter. *)
Definition format (localeCompare : jsstring -> jsstring -> Z)
    (twMerge : jsstring -> jsstring) (value : jsstring) : option jsstring :=
  formatWithGroups (H := MiniRegExp.engine) localeCompare twMerge value
    compiledGroups.

(** The double quote, and the inner pattern [STRING_ARGUMENT_REGEX]. *)
Definition dq : jsstring := [34%N].
Definition STRING_ARGUMENT_REGEX : jsstring :=
  js "[" ++ dq ++ js "'`]([^" ++ dq ++ js "'`]+)[" ++ dq ++ js "'`]".

(** [DEFAULT_CLASS_REGEX]: the calls whose string arguments the rule
    looks at without [classRegex]. *)
Definition DEFAULT_CLASS_REGEX : list ClassRegexEntry :=
  [Pair (js "cva\(([^)]*)\)") STRING_ARGUMENT_REGEX;
   Pair (js "clsx\(([^)]*)\)") STRING_ARGUMENT_REGEX;
   Pair (js "cn\(([^)]*)\)") STRING_ARGUMENT_REGEX;
   Pair (js "twMerge\(([^)]*)\)") STRING_ARGUMENT_REGEX].

End Builtin.

(** ** Notions of the specification *)

Section SpecNotions.
Context `{RegExpEngine}.

(** A matcher string is a valid pattern when [new RegExp] accepts it. *)
Definition validPattern (pattern : jsstring) : Prop :=
  exists r, RegExp_new pattern = inr r.

Definition validDefinition (d : TailwindGroupDefinition) : Prop :=
  Forall validPattern (matchers d).

(** A normalization cache holds, for each token it knows, what
    normalizing that token yields. *)
Definition cacheOk (groups : list (CompiledGroupDefinition RegExp))
    (cache : gmap jsstring NormalizedToken) : Prop :=
  forall token n,
    cache !! token = Some n -> n = ClassProcessor.normalized token groups.

(** Comparison results as signs, and the lexicographic combination of two
    keys: the second key decides only when the first one is equal. *)
Definition signOf (z : Z) : comparison := (z ?= 0)%Z.

Definition thenBy (c1 c2 : comparison) : comparison :=
  match c1 with
  | Eq => c2
  | _ => c1
  end.

(** An important token comes after one that is not. *)
Definition importanceOrder (x y : bool) : comparison :=
  match x, y with
  | false, true => Lt
  | true, false => Gt
  | _, _ => Eq
  end.

(** The order of the specification: group weight, then normalized base
    under the locale order, then importance (important last), then the
    original strings. *)
Definition fourKeyOrder (localeCompare : jsstring -> jsstring -> Z)
    (groups : list (CompiledGroupDefinition RegExp))
    (a b : jsstring) : comparison :=
  let na := ClassProcessor.normalized a groups in
  let nb := ClassProcessor.normalized b groups in
  thenBy (groupWeight na ?= groupWeight nb)
    (thenBy (signOf (localeCompare (base na) (base nb)))
       (thenBy (importanceOrder (important na) (important nb))
          (signOf (localeCompare a b)))).

(** What [formatWithGroups] hands to [twMerge] when the value holds several
    tokens: the sorted tokens joined by single spaces. *)
Definition sortedClassList (localeCompare : jsstring -> jsstring -> Z)
    (value : jsstring) (groups : list (CompiledGroupDefinition RegExp))
  : jsstring :=
  join (js " ")
    (fst (ClassProcessor.sort
            (fun a b => ClassProcessor.compareClasses localeCompare a b groups)
            (List.filter truthy
               (split 32 (ClassProcessor.collapseWhitespace value)))
            ∅)).

End SpecNotions.

(** The laws of a comparator that sorts consistently: swapping the
    arguments flips the sign, and "not after" is transitive. *)
Record Comparator {A} (cmp : A -> A -> comparison) : Prop := {
  cmp_flip : forall a b, cmp b a = CompOpp (cmp a b);
  cmp_trans : forall a b c, cmp a b <> Gt -> cmp b c <> Gt -> cmp a c <> Gt
}.

(** Bracket depth as the right-to-left scan of a suffix sees it: a closing
    bracket opens a level, an opening bracket closes one, never below 0. *)
Definition bracketDepth (suffix : jsstring) : nat :=
  fold_right
    (fun c depth =>
       if (c =? 93)%N then depth + 1
       else if (c =? 91)%N then (if 0 <? depth then depth - 1 else depth)
       else depth)
    0 suffix.

(** No colon of [s] stands at bracket depth 0. *)
Definition noTopLevelColon (s : jsstring) : Prop :=
  forall before after, s = before ++ 58%N :: after -> bracketDepth after <> 0.

(** No two adjacent code units are both white space. *)
Fixpoint singleSpaced (s : jsstring) : bool :=
  match s with
  | a :: (b :: _) as rest =>
      negb (isWhiteSpace a && isWhiteSpace b) && singleSpaced rest
  | _ => true
  end.

(** A string without any white space character. *)
Definition noWhiteSpace (s : jsstring) : Prop :=
  Forall (fun c => isWhiteSpace c = false) s.

(** [format(format(x) ?? x)] *)
Definition formatAgain (format : jsstring -> option jsstring) (x : jsstring)
  : option jsstring :=
  format (default x (format x)).

(** The quote characters of the specification: the double quote, the
    single quote and the backtick. *)
Definition quoteCharacter (c : N) : bool :=
  existsb (N.eqb c) [34; 39; 96]%N.

(** The scanner of the specification for argument regions: three states and
    a parenthesis depth.  One of the three quote characters opens a quoted
    region, which only the same character closes; a backslash inside it
    escapes the next character; parentheses count outside quoted regions
    only. *)
Inductive ScanMode :=
| Normal
| InString (quote : N)
| Escaped (quote : N).

Definition scanStep (st : ScanMode * nat) (ch : N) : ScanMode * nat :=
  match st with
  | (Normal, depth) =>
      if quoteCharacter ch then (InString ch, depth)
      else if (ch =? 40)%N then (Normal, depth + 1)
      else if (ch =? 41)%N then (Normal, depth - 1)
      else (Normal, depth)
  | (InString q, depth) =>
      if (ch =? 92)%N then (Escaped q, depth)
      else if (ch =? q)%N then (Normal, depth)
      else (InString q, depth)
  | (Escaped q, depth) => (InString q, depth)
  end.

(** How the two variables [inString] and [escaped] of the code hold the
    three states; a quoted region is one opened by a quote character. *)
Definition inStringOf (mode : ScanMode) : option N :=
  match mode with
  | Normal => None
  | InString q | Escaped q => Some q
  end.

Definition escapedOf (mode : ScanMode) : bool :=
  match mode with
  | Escaped _ => true
  | _ => false
  end.

Definition modeOk (mode : ScanMode) : Prop :=
  match mode with
  | Normal => True
  | InString q | Escaped q => quoteCharacter q = true
  end.

(** [rest !! n] is a closing parenthesis read at depth 1 outside strings by
    a scanner that starts on [rest] in state [st]. *)
Definition closesAfter (rest : jsstring) (st : ScanMode * nat) (n : nat)
  : Prop :=
  rest !! n = Some 41%N /\ fold_left scanStep (take n rest) st = (Normal, 1).

(** The state after the scanner has read [region], starting right after an
    opening parenthesis. *)
Definition scanState (region : jsstring) : ScanMode * nat :=
  fold_left scanStep region (Normal, 1).

(** Position [i] holds a closing parenthesis that brings the depth of the
    parenthesis opened at [openParenIndex] back to zero. *)
Definition closesAt (text : jsstring) (openParenIndex i : nat) : Prop :=
  openParenIndex < i /\ text !! i = Some 41%N /\
  scanState (slice text (openParenIndex + 1) i) = (Normal, 1).

(** A string that does not start with white space. *)
Definition headOk (s : jsstring) : Prop :=
  match s with
  | c :: _ => isWhiteSpace c = false
  | [] => True
  end.

(** [a] does not come after [b]. *)
Definition notAfter {A} (cmp : A -> A -> comparison) (a b : A) : Prop :=
  cmp a b <> Gt.

(** A class as the formatter sees one: not empty, no white space in it. *)
Definition cleanToken (t : jsstring) : Prop := t <> [] /\ noWhiteSpace t.

(** The only white space of the string is the space character. *)
Definition onlySpaces (s : jsstring) : Prop :=
  Forall (fun c => isWhiteSpace c = true -> c = 32%N) s.

(** A compiled group moved [k] places down the registry. *)
Definition shiftWeight {R} (k : nat) (g : CompiledGroupDefinition R)
  : CompiledGroupDefinition R :=
  {| cname := cname g; weight := k + weight g; regexes := regexes g |}.

(** The value of every match is the text at its range, which is not
    reversed. *)
Definition exactMatch (text : jsstring) (m : RangeMatch) : Prop :=
  fst (range m) <= snd (range m) /\
  value m = slice text (fst (range m)) (snd (range m)).

(** A literal found in [text]: the same quote stands right before its
    start and at its end, its value is the text in between, and no quote
    of that kind in between is free of a backslash before it. *)
Definition exactLiteral (text : jsstring) (lit : StringLiteral) : Prop :=
  exists quote,
    quoteCharacter quote = true /\
    1 <= lit_start lit <= lit_end lit /\
    text !! (lit_start lit - 1) = Some quote /\
    text !! lit_end lit = Some quote /\
    lit_value lit = slice text (lit_start lit) (lit_end lit) /\
    forall k, lit_start lit <= k < lit_end lit ->
              text !! k = Some quote -> text !! (k - 1) = Some 92%N.

(** The scanner stands at [i] inside a literal opened at [start]. *)
Definition insideOk (text : jsstring) (i : nat) (scan : SortClasses.LiteralScan)
  : Prop :=
  match scan with
  | SortClasses.Between => True
  | SortClasses.Inside quote start value prev =>
      SortClasses.isQuote quote = true /\ start < i /\
      text !! start = Some quote /\ text !! (i - 1) = Some prev /\
      value = slice text (start + 1) i /\
      forall k, start + 1 <= k < i ->
                text !! k = Some quote -> text !! (k - 1) = Some 92%N
  end.

(** A report that changes the text it replaces. *)
Definition properReport (text : jsstring)
    (formatClassList : jsstring -> option jsstring) (r : Report) : Prop :=
  let source := slice text (fst (reportRange r)) (snd (reportRange r)) in
  formatClassList source = Some (fixText r) /\
  fixText r <> source /\ fixText r <> [].

(** The ranges reported so far are those of the set, none twice, and no
    fix is empty. *)
Definition stateOk (st : RuleState) : Prop :=
  NoDup (map reportRange (reports st)) /\
  (forall r, r ∈ reportedRanges st <-> r ∈ map reportRange (reports st)) /\
  Forall (fun r => fixText r <> []) (reports st).

(** The captures of [regex] on [target] lie inside the match they belong
    to (what an expression without lookaround gives). *)
Definition capturesInside `{RegExpEngine} (regex : RegExp)
    (target : jsstring) : Prop :=
  forall i m, i <= length target -> matcher regex target i = Some m ->
    match group1 m with
    | Some (a, n) => i <= a /\ a + n <= i + matchedLength m
    | None => True
    end.

(** [m] was emitted for the result [innerMatch] of [exec]: its value is
    the capture (the whole match without one) and its range lies inside
    the match. *)
Definition emittedFor (containerOffset : nat) (innerMatch : RegExpExecArray)
    (m : RangeMatch) : Prop :=
  value m = default (match0 innerMatch) (match1 innerMatch) /\
  containerOffset + index innerMatch <= fst (range m) /\
  snd (range m) = fst (range m) + length (value m) /\
  snd (range m)
  <= containerOffset + index innerMatch + length (match0 innerMatch).

(** [a] ends, closing quote included, before the opening quote of [b]. *)
Definition literalBefore (a b : StringLiteral) : Prop :=
  lit_end a + 2 <= lit_start b.

(** [m] lies in an argument region of [text]: after an opening
    parenthesis at [openAbs] and not beyond [closeAbs], the position that
    [findMatchingParenIndex] returns for it, which is the first one that
    closes the parenthesis. *)
Definition insideRegion (text : jsstring) (m : RangeMatch) : Prop :=
  exists openAbs closeAbs,
    text !! openAbs = Some 40%N /\
    SortClasses.findMatchingParenIndex text openAbs = Some closeAbs /\
    closesAt text openAbs closeAbs /\
    (forall j, j < closeAbs -> ~ closesAt text openAbs j) /\
    openAbs < fst (range m) /\ fst (range m) <= snd (range m) /\
    snd (range m) <= closeAbs /\ closeAbs < length text.

(** * Properties *)

(** ** Group registry *)

Section GroupRegistry.
Context `{RegExpEngine}.
Import ClassProcessor.

Lemma compileFrom_shape (definitions : list TailwindGroupDefinition) :
  forall index groups,
    compileFrom index definitions = inr groups ->
    length groups = length definitions /\
    map weight groups = seq index (length groups).
Proof.
  induction definitions as [|d rest IH]; intros index groups Hc; simpl in Hc.
  - injection Hc as <-. split; reflexivity.
  - destruct (compileMatchers (matchers d)) as [e|rs]; simpl in Hc; [done|].
    destruct (compileFrom (S index) rest) as [e|gs] eqn:Hrest; simpl in Hc;
      [done|].
    injection Hc as <-. destruct (IH _ _ Hrest) as [Hlen Hw].
    simpl. rewrite Hw, Hlen. split; reflexivity.
Qed.

Lemma resolveLoop_first token (groups : list (CompiledGroupDefinition RegExp)) :
  forall i g,
    groups !! i = Some g -> groupMatches token g = true ->
    (forall j g', j < i -> groups !! j = Some g' ->
                  groupMatches token g' = false) ->
    resolveLoop token groups = Some (weight g).
Proof.
  induction groups as [|g0 rest IH]; intros i g Hg Hm Hbefore; [done|].
  destruct i as [|i]; simpl in *.
  - injection Hg as ->. rewrite Hm. done.
  - rewrite (Hbefore 0 g0) by (done || lia).
    apply (IH i g Hg Hm). intros j g' Hj Hg'.
    apply (Hbefore (S j) g'); [lia | done].
Qed.

Lemma resolveLoop_none token (groups : list (CompiledGroupDefinition RegExp)) :
  resolveLoop token groups = None <->
  forall g, g ∈ groups -> groupMatches token g = false.
Proof.
  induction groups as [|g0 rest IH]; simpl.
  - split; [intros _ g Hg; by apply elem_of_nil in Hg | done].
  - destruct (groupMatches token g0) eqn:Hm.
    + split; [done|]. intros Hall.
      specialize (Hall g0 (list_elem_of_here _ _)). congruence.
    + rewrite IH. split.
      * intros Hall g Hg. apply elem_of_cons in Hg as [->|Hg]; auto.
      * intros Hall g Hg. apply Hall. by apply list_elem_of_further.
Qed.

Lemma resolveLoop_some token (groups : list (CompiledGroupDefinition RegExp)) w :
  resolveLoop token groups = Some w ->
  exists i g, groups !! i = Some g /\ weight g = w /\
              groupMatches token g = true.
Proof.
  induction groups as [|g0 rest IH]; simpl; [done|].
  destruct (groupMatches token g0) eqn:Hm.
  - intros [= <-]. exists 0, g0. repeat split; auto.
  - intros Hw. destruct (IH Hw) as (i & g & Hg & Hwg & Hmg).
    exists (S i), g. repeat split; auto.
Qed.

Lemma lookup_weight (groups : list (CompiledGroupDefinition RegExp)) i g :
  map weight groups = seq 0 (length groups) ->
  groups !! i = Some g -> weight g = i.
Proof.
  intros Hw Hg.
  assert (Hm : map weight groups !! i = Some (weight g)).
  { change (map weight groups) with (weight <$> groups).
    rewrite list_lookup_fmap, Hg. done. }
  rewrite Hw in Hm. apply lookup_seq in Hm. lia.
Qed.

(** C2.  On the groups compiled from any list of definitions, the weights
    are 0, 1, ... in registry order; [resolveGroupWeight] returns the index
    of the first group one of whose matchers matches the token, and the
    number of groups when no group matches; so a token gets a weight below
    the number of groups exactly when some group matches it, and a token
    no group matches gets a weight above that of every matched token. *)
Theorem resolveGroupWeight_first_matching_group
    (definitions : list TailwindGroupDefinition)
    (groups : list (CompiledGroupDefinition RegExp)) (token : jsstring) :
  compileGroupDefinitions definitions = inr groups ->
  length groups = length definitions /\
  map weight groups = seq 0 (length groups) /\
  (forall i g,
      groups !! i = Some g -> groupMatches token g = true ->
      (forall j g', j < i -> groups !! j = Some g' ->
                    groupMatches token g' = false) ->
      resolveGroupWeight token groups = i) /\
  ((forall g, g ∈ groups -> groupMatches token g = false) ->
   resolveGroupWeight token groups = length groups) /\
  (resolveGroupWeight token groups < length groups <->
   exists g, g ∈ groups /\ groupMatches token g = true) /\
  (forall unclassified,
      (forall g, g ∈ groups -> groupMatches unclassified g = false) ->
      (exists g, g ∈ groups /\ groupMatches token g = true) ->
      resolveGroupWeight token groups
      < resolveGroupWeight unclassified groups).
Proof.
  intros Hc. destruct (compileFrom_shape _ _ _ Hc) as [Hlen Hw].
  assert (Hnone : forall t,
             (forall g, g ∈ groups -> groupMatches t g = false) ->
             resolveGroupWeight t groups = length groups).
  { intros t Hall. unfold resolveGroupWeight.
    apply resolveLoop_none in Hall. rewrite Hall. done. }
  assert (Hsome : resolveGroupWeight token groups < length groups <->
                  exists g, g ∈ groups /\ groupMatches token g = true).
  { unfold resolveGroupWeight.
    destruct (resolveLoop token groups) as [w|] eqn:Hr.
    - destruct (resolveLoop_some _ _ _ Hr) as (i & g & Hg & Hwg & Hm).
      split.
      + intros _. exists g. split; [|done].
        apply list_elem_of_lookup. eauto.
      + intros _. rewrite <- Hwg, (lookup_weight _ _ _ Hw Hg).
        by apply lookup_lt_Some in Hg.
    - split; [lia|]. intros (g & Hg & Hm).
      rewrite resolveLoop_none in Hr. rewrite (Hr g Hg) in Hm. done. }
  repeat split; auto.
  - intros i g Hg Hm Hbefore. unfold resolveGroupWeight.
    rewrite (resolveLoop_first _ _ _ _ Hg Hm Hbefore).
    apply (lookup_weight _ _ _ Hw Hg).
  - apply Hsome.
  - apply Hsome.
  - intros u Hu Ht. rewrite (Hnone u Hu). by apply Hsome.
Qed.

Lemma compileMatchers_valid (patterns : list jsstring) :
  Forall validPattern patterns ->
  exists rs, compileMatchers patterns = inr rs /\
             Forall2 (fun p r => RegExp_new p = inr r) patterns rs.
Proof.
  induction 1 as [|p ps [r Hr] _ (rs & Hrs & Hall)]; simpl.
  - eexists. split; [done | constructor].
  - rewrite Hr, Hrs. simpl. eexists. split; [done|]. by constructor.
Qed.

Lemma compileMatchers_first_invalid (before after : list jsstring) p e :
  Forall validPattern before -> RegExp_new p = inl e ->
  compileMatchers (before ++ p :: after) = inl e.
Proof.
  induction 1 as [|q qs [r Hr] _ IH]; intros Hp; simpl.
  - rewrite Hp. done.
  - rewrite Hr. simpl. rewrite (IH Hp). done.
Qed.

Lemma compileFrom_valid (definitions : list TailwindGroupDefinition) :
  Forall validDefinition definitions ->
  forall index, exists groups,
    compileFrom index definitions = inr groups /\
    Forall2 (fun d g =>
               cname g = name d /\
               Forall2 (fun p r => RegExp_new p = inr r)
                 (matchers d) (regexes g))
      definitions groups.
Proof.
  induction 1 as [|d ds Hd _ IH]; intros index; simpl.
  - eexists. split; [done | constructor].
  - destruct (compileMatchers_valid _ Hd) as (rs & -> & Hrs).
    destruct (IH (S index)) as (gs & -> & Hgs). simpl.
    eexists. split; [done|]. constructor; [|done]. done.
Qed.

Lemma compileFrom_first_invalid
    (before after : list TailwindGroupDefinition) d e :
  Forall validDefinition before ->
  compileMatchers (matchers d) = inl e ->
  forall index, compileFrom index (before ++ d :: after) = inl e.
Proof.
  induction 1 as [|q qs Hq _ IH]; intros Hd index; simpl.
  - rewrite Hd. done.
  - destruct (compileMatchers_valid _ Hq) as (rs & -> & _). simpl.
    rewrite (IH Hd). done.
Qed.

Lemma first_invalid_pattern (patterns : list jsstring) :
  Forall validPattern patterns \/
  exists before p after e,
    patterns = before ++ p :: after /\ Forall validPattern before /\
    RegExp_new p = inl e.
Proof.
  induction patterns as [|p ps IH]; [left; constructor|].
  destruct (RegExp_new p) as [e|r] eqn:Hp.
  - right. exists [], p, ps, e. repeat split; auto.
  - destruct IH as [Hall|(before & q & after & e & -> & Hb & Hq)].
    + left. constructor; [by exists r | done].
    + right. exists (p :: before), q, after, e. repeat split; auto.
      constructor; [by exists r | done].
Qed.

Lemma first_invalid_definition (definitions : list TailwindGroupDefinition) :
  Forall validDefinition definitions \/
  exists before d after,
    definitions = before ++ d :: after /\ Forall validDefinition before /\
    ~ validDefinition d.
Proof.
  induction definitions as [|d ds IH]; [left; constructor|].
  destruct (first_invalid_pattern (matchers d))
    as [Hd|(b & p & a & e & Hm & Hb & Hp)].
  - destruct IH as [Hall|(before & q & after & -> & Hb & Hq)].
    + left. by constructor.
    + right. exists (d :: before), q, after. repeat split; auto.
  - right. exists [], d, ds. repeat split; auto.
    intros Hd. unfold validDefinition in Hd. rewrite Hm in Hd.
    apply Forall_app in Hd as [_ Hd]. apply Forall_cons in Hd as [[r Hr] _].
    congruence.
Qed.

(** C10, as the code has it.  Compiling fails at construction time (no
    formatter is built, so nothing is matched) whenever some matcher
    string is not a valid pattern, and the error is the one [new RegExp]
    throws for the first invalid matcher string, in definition order and
    then matcher order: an error made from that pattern alone.  When
    every matcher string is valid, compiling does not throw and returns
    one compiled group per definition, with the definition's name, its
    patterns compiled in order and a weight equal to its position. *)
Theorem compileGroupDefinitions_fails_fast
    (localeCompare : jsstring -> jsstring -> Z)
    (twMerge : jsstring -> jsstring)
    (defaults definitions : list TailwindGroupDefinition) :
  (~ Forall validDefinition definitions ->
   exists before d after ps p qs e,
     definitions = before ++ d :: after /\
     Forall validDefinition before /\
     matchers d = ps ++ p :: qs /\ Forall validPattern ps /\
     RegExp_new p = inl e /\
     compileGroupDefinitions definitions = inl e /\
     createClassFormatter localeCompare twMerge defaults
       (Some {| groupDefinitions := Some definitions |}) = inl e) /\
  (Forall validDefinition definitions ->
   exists groups,
     compileGroupDefinitions definitions = inr groups /\
     length groups = length definitions /\
     forall i d,
       definitions !! i = Some d ->
       exists g, groups !! i = Some g /\ weight g = i /\
                 cname g = name d /\
                 Forall2 (fun p r => RegExp_new p = inr r)
                   (matchers d) (regexes g)).
Proof.
  split.
  - intros Hbad.
    destruct (first_invalid_definition definitions)
      as [Hall|(before & d & after & -> & Hb & Hd)]; [done|].
    destruct (first_invalid_pattern (matchers d))
      as [Hv|(ps & p & qs & e & Hm & Hps & Hp)]; [done|].
    assert (Hc : compileGroupDefinitions (before ++ d :: after) = inl e).
    { apply compileFrom_first_invalid; [done|].
      rewrite Hm. by apply compileMatchers_first_invalid. }
    exists before, d, after, ps, p, qs, e. repeat split; auto.
    unfold createClassFormatter.
    replace (0 <? length (before ++ d :: after)) with true.
    + rewrite Hc. done.
    + symmetry. apply Nat.ltb_lt. rewrite length_app. simpl. lia.
  - intros Hall.
    destruct (compileFrom_valid _ Hall 0) as (groups & Hc & Hshape).
    destruct (compileFrom_shape _ _ _ Hc) as [Hlen Hw].
    exists groups. repeat split; auto.
    intros i d Hd.
    destruct (Forall2_lookup_l _ _ _ _ _ Hshape Hd) as (g & Hg & Hn & Hr).
    exists g. repeat split; auto. by apply (lookup_weight groups).
Qed.

End GroupRegistry.

(** The two halves of the theorem on compilation at concrete definitions:
    a list with an unbalanced pattern, and the built-in table. *)
Lemma compileGroupDefinitions_fails_fast_witness :
  (exists e,
      ClassProcessor.compileGroupDefinitions (H := MiniRegExp.engine)
        [group "first" ["^bg-"]; group "second" ["^p-"; "("; "^m-"]]%string
      = inl e /\
      @RegExp_new MiniRegExp.engine (js "(") = inl e) /\
  (exists groups,
      ClassProcessor.compileGroupDefinitions (H := MiniRegExp.engine)
        defaultGroupDefinitions
      = inr groups /\
      length groups = 15).
Proof.
  pose proof (compileGroupDefinitions_fails_fast (H := MiniRegExp.engine)
                Host.codeUnitCompare Host.keepAllMerge [])
    as Hthm.
  split.
  - destruct (Hthm [group "first" ["^bg-"]; group "second" ["^p-"; "("; "^m-"]]%string)
      as [Hfail _].
    destruct Hfail as (before & d & after & ps & p & qs & e & _ & _ & _ & _
                       & Hp & Hc & _).
    + intros Hall. apply Forall_cons in Hall as [_ Hall].
      apply Forall_cons in Hall as [Hd _].
      apply Forall_cons in Hd as [_ Hd]. apply Forall_cons in Hd as [[r Hr] _].
      vm_compute in Hr. discriminate Hr.
    + exists e. split; [exact Hc|]. vm_compute in Hc. injection Hc as <-.
      vm_compute. reflexivity.
  - destruct (Hthm defaultGroupDefinitions) as [_ Hok].
    destruct Hok as (groups & Hc & Hlen & _).
    + unfold defaultGroupDefinitions, group. simpl.
      repeat (constructor; [repeat (constructor;
                [eexists; vm_compute; reflexivity|]); constructor|]).
      constructor.
    + exists groups. split; [exact Hc | exact Hlen].
Defined.

(** C10, counterexample.  Two definitions that differ in their name only
    and hold the same unbalanced pattern fail with the very same error: it
    is the engine's syntax error, which quotes the pattern, and nothing in
    it tells the two groups apart. *)
Lemma compile_error_does_not_name_the_group :
  exists e,
    ClassProcessor.compileGroupDefinitions (H := MiniRegExp.engine)
      [group "first" ["("]%string] = inl e /\
    ClassProcessor.compileGroupDefinitions (H := MiniRegExp.engine)
      [group "second" ["("]%string] = inl e /\
    message e = js "Invalid regular expression: /(/: Unterminated group".
Proof. eexists. repeat split; vm_compute; reflexivity. Qed.

(** The weight theorem at the built-in table: [flex] is matched by the
    first group, and a class no pattern knows gets the number of groups. *)
Lemma resolveGroupWeight_first_matching_group_witness :
  ClassProcessor.resolveGroupWeight (H := MiniRegExp.engine) (js "flex")
    Builtin.compiledGroups = 0 /\
  ClassProcessor.resolveGroupWeight (H := MiniRegExp.engine)
    (js "unknown-class") Builtin.compiledGroups = 15.
Proof.
  pose proof (resolveGroupWeight_first_matching_group
                (H := MiniRegExp.engine) defaultGroupDefinitions
                Builtin.compiledGroups) as Hthm.
  split.
  - destruct (Hthm (js "flex") ltac:(vm_compute; reflexivity))
      as (_ & _ & Hfirst & _).
    eapply Hfirst; [vm_compute; reflexivity | vm_compute; reflexivity |].
    intros j g' Hj. lia.
  - destruct (Hthm (js "unknown-class") ltac:(vm_compute; reflexivity))
      as (_ & _ & _ & Hnone & _).
    rewrite Hnone; [vm_compute; reflexivity|].
    apply Forall_forall. apply (bool_decide_unpack _). vm_compute. exact I.
Defined.

(** ** Token normalizer *)

Section Normalizer.
Context `{RegExpEngine}.
Import ClassProcessor.

Lemma noTopLevelColon_nil : noTopLevelColon [].
Proof. intros [|? ?] after Hs; discriminate Hs. Qed.

Lemma noTopLevelColon_cons c suffix :
  noTopLevelColon suffix ->
  (c = 58%N -> bracketDepth suffix <> 0) ->
  noTopLevelColon (c :: suffix).
Proof.
  intros Hs Hc [|b before] after Heq; simpl in Heq.
  - injection Heq as -> ->. by apply Hc.
  - injection Heq as _ ->. by apply (Hs before after).
Qed.

(** The loop keeps [depth] equal to the bracket depth of what it has read,
    stops at the first colon it meets at depth 0 and has met none before. *)
Lemma stripVariantsLoop_spec (todo : jsstring) :
  forall suffix,
    noTopLevelColon suffix ->
    match stripVariantsLoop todo (bracketDepth suffix) suffix with
    | Some b =>
        exists before,
          rev todo ++ suffix = before ++ 58%N :: b /\
          bracketDepth b = 0 /\ noTopLevelColon b
    | None => noTopLevelColon (rev todo ++ suffix)
    end.
Proof.
  induction todo as [|char todo IH]; intros suffix Hs; simpl; [done|].
  rewrite <- app_assoc. simpl.
  destruct (char =? 93)%N eqn:Hclose.
  - apply N.eqb_eq in Hclose as ->.
    specialize (IH (93%N :: suffix)). simpl in IH. apply IH.
    apply noTopLevelColon_cons; [done | discriminate].
  - destruct (char =? 91)%N eqn:Hopen.
    + apply N.eqb_eq in Hopen as ->.
      specialize (IH (91%N :: suffix)). simpl in IH. apply IH.
      apply noTopLevelColon_cons; [done | discriminate].
    + destruct ((char =? 58)%N && (bracketDepth suffix =? 0)) eqn:Hcolon.
      * apply andb_true_iff in Hcolon as [Hc Hd].
        apply N.eqb_eq in Hc as ->. apply Nat.eqb_eq in Hd.
        exists (rev todo). done.
      * specialize (IH (char :: suffix)). simpl in IH.
        rewrite Hclose, Hopen in IH. apply IH.
        apply noTopLevelColon_cons; [done|]. intros ->.
        simpl in Hcolon. by apply Nat.eqb_neq in Hcolon.
Qed.

Lemma normalizeToken_cacheOk token groups cache :
  cacheOk groups cache ->
  fst (normalizeToken token groups cache) = normalized token groups /\
  cacheOk groups (snd (normalizeToken token groups cache)).
Proof.
  intros Hok. unfold normalizeToken.
  destruct (cache !! token) as [cached|] eqn:Hc; simpl.
  - split; [by apply Hok | done].
  - split; [done|]. intros t n.
    destruct (decide (token = t)) as [->|Hne].
    + rewrite lookup_insert_eq. by intros [= <-].
    + rewrite lookup_insert_ne by done. apply Hok.
Qed.

Lemma cacheOk_empty groups : cacheOk groups ∅.
Proof. intros t n Hl. rewrite lookup_empty in Hl. discriminate Hl. Qed.

(** C3.  [stripVariants] returns what follows the first colon that the
    right-to-left scan meets at bracket depth 0: the token splits at a colon
    behind which the depth is 0 and the returned base has no colon at depth
    0 of its own; when the token has no colon at depth 0 it is returned
    whole.  The base of a normalized token is this, taken after the
    important marker.  So [hover:[&:nth-child(2)]:bg-red-500] has base
    [bg-red-500], and [hover:bg-red-500] gets the group weight of
    [bg-red-500], whatever the groups and the state of the cache. *)
Theorem stripVariants_base_after_top_level_colon :
  (forall token,
      (exists before,
          token = before ++ 58%N :: stripVariants token /\
          bracketDepth (stripVariants token) = 0 /\
          noTopLevelColon (stripVariants token))
      \/ (stripVariants token = token /\ noTopLevelColon token)) /\
  (forall token groups,
      base (normalized token groups)
      = stripVariants (snd (removeImportantPrefix token))) /\
  (forall groups cache,
      cacheOk groups cache ->
      base (fst (normalizeToken (js "hover:[&:nth-child(2)]:bg-red-500")
                   groups cache))
      = js "bg-red-500") /\
  (forall groups cache cache',
      cacheOk groups cache -> cacheOk groups cache' ->
      groupWeight (fst (normalizeToken (js "hover:bg-red-500") groups cache))
      = groupWeight (fst (normalizeToken (js "bg-red-500") groups cache'))).
Proof.
  repeat split.
  - intros token. unfold stripVariants.
    pose proof (stripVariantsLoop_spec (rev token) [] noTopLevelColon_nil)
      as Hloop.
    simpl in Hloop. rewrite rev_involutive, app_nil_r in Hloop.
    destruct (stripVariantsLoop (rev token) 0 []) as [b|].
    + left. exact Hloop.
    + right. done.
  - intros groups cache Hok.
    destruct (normalizeToken_cacheOk
                (js "hover:[&:nth-child(2)]:bg-red-500") groups cache Hok)
      as [-> _].
    reflexivity.
  - intros groups cache cache' Hok Hok'.
    destruct (normalizeToken_cacheOk (js "hover:bg-red-500") groups cache Hok)
      as [-> _].
    destruct (normalizeToken_cacheOk (js "bg-red-500") groups cache' Hok')
      as [-> _].
    reflexivity.
Qed.

End Normalizer.

(** ** Formatter *)

Section Formatter.
Context `{RegExpEngine}.
Variable localeCompare : jsstring -> jsstring -> Z.
Variable twMerge : jsstring -> jsstring.
Import ClassProcessor.



Lemma replaceFirstWhitespaceRun_noWhiteSpace s :
  noWhiteSpace s -> replaceFirstWhitespaceRun s = s.
Proof.
  induction 1 as [|c r Hc _ IH]; simpl; [done|]. by rewrite Hc, IH.
Qed.

Lemma split_noWhiteSpace s : noWhiteSpace s -> split 32 s = [s].
Proof.
  induction 1 as [|c r Hc _ IH]; simpl; [done|].
  destruct (c =? 32)%N eqn:Hsp.
  - apply N.eqb_eq in Hsp as ->. discriminate Hc.
  - by rewrite IH.
Qed.

Lemma eqb_true (a b : jsstring) : a = b -> eqb a b = true.
Proof. intros ->. unfold eqb. by apply bool_decide_eq_true. Qed.



Lemma formatWithGroups_several value groups collapsed sorted merged :
  collapseWhitespace value = collapsed ->
  truthy collapsed = true ->
  (length (List.filter truthy (split 32 collapsed)) <=? 1) = false ->
  sortedClassList localeCompare value groups = sorted ->
  collapseWhitespace (twMerge sorted) = merged ->
  formatWithGroups localeCompare twMerge value groups
  = if eqb merged collapsed
    then (if eqb collapsed value then None else Some collapsed)
    else Some merged.
Proof.
  intros Hc Ht Hn Hs Hm. unfold formatWithGroups. cbv zeta.
  unfold sortedClassList in Hs. rewrite Hc in Hs |- *.
  rewrite Ht, Hn. simpl. rewrite Hs, Hm. done.
Qed.

End Formatter.

(** C4, at a failing input.  Only the first run of white space is
    collapsed: [flex gap-4  p-2], with two spaces before the third class,
    comes back unchanged and still holds two adjacent spaces, where the
    specification promises single spaces throughout.  The example of the
    specification, whose only inner run is the first one, comes out as
    stated. *)
Theorem collapseWhitespace_first_run_only :
  ClassProcessor.collapseWhitespace (js "flex gap-4  p-2")
  = js "flex gap-4  p-2" /\
  singleSpaced (ClassProcessor.collapseWhitespace (js "flex gap-4  p-2"))
  = false /\
  ClassProcessor.collapseWhitespace (js "  flex   gap-4  ") = js "flex gap-4".
Proof. repeat split; vm_compute; reflexivity. Qed.

(** ** Comparator *)

Section ComparatorLaws.
Context {A : Type}.


Lemma cmp_lt_le (cmp : A -> A -> comparison) a b c :
  Comparator cmp -> cmp a b = Lt -> cmp b c <> Gt -> cmp a c = Lt.
Proof.
  intros [Hflip Htrans] Hab Hbc.
  assert (Hac : cmp a c <> Gt) by (apply (Htrans a b c); congruence).
  destruct (cmp a c) eqn:E; try done.
  assert (Hca : cmp c a <> Gt) by (rewrite (Hflip a c), E; simpl; congruence).
  pose proof (Htrans b c a Hbc Hca) as Hba.
  rewrite (Hflip a b), Hab in Hba. simpl in Hba. congruence.
Qed.

Lemma cmp_le_lt (cmp : A -> A -> comparison) a b c :
  Comparator cmp -> cmp a b <> Gt -> cmp b c = Lt -> cmp a c = Lt.
Proof.
  intros [Hflip Htrans] Hab Hbc.
  assert (Hac : cmp a c <> Gt) by (apply (Htrans a b c); congruence).
  destruct (cmp a c) eqn:E; try done.
  assert (Hca : cmp c a <> Gt) by (rewrite (Hflip a c), E; simpl; congruence).
  pose proof (Htrans c a b Hca Hab) as Hcb.
  rewrite (Hflip b c), Hbc in Hcb. simpl in Hcb. congruence.
Qed.

Lemma cmp_eq_eq (cmp : A -> A -> comparison) a b c :
  Comparator cmp -> cmp a b = Eq -> cmp b c = Eq -> cmp a c = Eq.
Proof.
  intros Hcmp Hab Hbc. pose proof Hcmp as [Hflip Htrans].
  assert (Hac : cmp a c <> Gt) by (apply (Htrans a b c); congruence).
  assert (Hca : cmp c a <> Gt).
  { apply (Htrans c b a).
    - rewrite (Hflip b c), Hbc. simpl. congruence.
    - rewrite (Hflip a b), Hab. simpl. congruence. }
  rewrite (Hflip a c) in Hca.
  destruct (cmp a c); simpl in Hca; congruence.
Qed.

Lemma Comparator_thenBy (c1 c2 : A -> A -> comparison) :
  Comparator c1 -> Comparator c2 ->
  Comparator (fun a b => thenBy (c1 a b) (c2 a b)).
Proof.
  intros H1 H2. split.
  - intros a b. rewrite (cmp_flip _ H1 a b), (cmp_flip _ H2 a b).
    by destruct (c1 a b).
  - intros a b c Hab Hbc.
    destruct (c1 a b) eqn:Eab; simpl in Hab; [| |done].
    + destruct (c1 b c) eqn:Ebc; simpl in Hbc; [| |done].
      * rewrite (cmp_eq_eq c1 a b c H1 Eab Ebc). simpl.
        by apply (cmp_trans _ H2 a b c).
      * rewrite (cmp_le_lt c1 a b c H1); [done | congruence | done].
    + rewrite (cmp_lt_le c1 a b c H1); [done | done |].
      destruct (c1 b c); simpl in Hbc; congruence.
Qed.

Lemma Comparator_on {B} (f : A -> B) (cmp : B -> B -> comparison) :
  Comparator cmp -> Comparator (fun a b => cmp (f a) (f b)).
Proof.
  intros [Hflip Htrans]. split.
  - intros a b. apply Hflip.
  - intros a b c. apply Htrans.
Qed.

End ComparatorLaws.

Lemma Comparator_nat : Comparator Nat.compare.
Proof.
  split.
  - intros a b. apply Nat.compare_antisym.
  - intros a b c Hab Hbc.
    apply Nat.compare_le_iff in Hab. apply Nat.compare_le_iff in Hbc.
    apply Nat.compare_le_iff. lia.
Qed.

Lemma Comparator_importance : Comparator importanceOrder.
Proof.
  split.
  - by intros [] [].
  - by intros [] [] [].
Qed.

Section Comparator.
Context `{RegExpEngine}.
Variable localeCompare : jsstring -> jsstring -> Z.
Hypothesis localeOrder : Comparator (fun a b => signOf (localeCompare a b)).
Import ClassProcessor.

Lemma fourKeyOrder_Comparator groups :
  Comparator (fourKeyOrder localeCompare groups).
Proof.
  unfold fourKeyOrder.
  apply (Comparator_thenBy
           (fun a b => groupWeight (normalized a groups)
                       ?= groupWeight (normalized b groups))).
  { apply (Comparator_on (fun a => groupWeight (normalized a groups))),
      Comparator_nat. }
  apply (Comparator_thenBy
           (fun a b => signOf (localeCompare (base (normalized a groups))
                                 (base (normalized b groups))))).
  { apply (Comparator_on (fun a => base (normalized a groups))
             (fun a b => signOf (localeCompare a b))), localeOrder. }
  apply (Comparator_thenBy
           (fun a b => importanceOrder (important (normalized a groups))
                         (important (normalized b groups)))
           (fun a b => signOf (localeCompare a b))).
  { apply (Comparator_on (fun a => important (normalized a groups))),
      Comparator_importance. }
  apply localeOrder.
Qed.

Lemma signOf_difference (x y : nat) :
  signOf (Z.of_nat x - Z.of_nat y) = (x ?= y).
Proof.
  unfold signOf. rewrite <- Z.compare_sub. apply Nat2Z.inj_compare.
Qed.

Lemma compareClasses_refines groups a b cache :
  cacheOk groups cache ->
  signOf (fst (compareClasses localeCompare a b groups cache))
  = fourKeyOrder localeCompare groups a b /\
  cacheOk groups (snd (compareClasses localeCompare a b groups cache)).
Proof.
  intros Hok. unfold compareClasses, fourKeyOrder.
  destruct (normalizeToken_cacheOk a groups cache Hok) as [Ha Hok1].
  destruct (normalizeToken a groups cache) as [na cache1]. simpl in Ha, Hok1.
  destruct (normalizeToken_cacheOk b groups cache1 Hok1) as [Hb Hok2].
  destruct (normalizeToken b groups cache1) as [nb cache2]. simpl in Hb, Hok2.
  rewrite <- Ha, <- Hb. clear Ha Hb.
  destruct na as [ia ba wa], nb as [ib bb wb].
  cbn [groupWeight base important].
  destruct (wa =? wb) eqn:Hw; cbn [negb].
  - apply Nat.eqb_eq in Hw. subst wb. rewrite Nat.compare_refl.
    cbn [thenBy].
    destruct (localeCompare ba bb =? 0)%Z eqn:Hbase; cbn [negb fst snd].
    + apply Z.eqb_eq in Hbase. rewrite Hbase.
      destruct ia, ib; cbn; done.
    + split; [|done]. apply Z.eqb_neq in Hbase. unfold signOf.
      destruct (Z.compare_spec (localeCompare ba bb) 0); cbn; done.
  - split; [|done]. cbn [fst]. rewrite signOf_difference.
    apply Nat.eqb_neq in Hw.
    destruct (Nat.compare_spec wa wb); cbn; done.
Qed.


End Comparator.

Lemma codeUnitCompare_sign_flip (a : jsstring) :
  forall b,
    signOf (Host.codeUnitCompare b a) = CompOpp (signOf (Host.codeUnitCompare a b)).
Proof.
  induction a as [|x a IH]; intros [|y b]; simpl; try done.
  destruct (N.ltb_spec x y), (N.ltb_spec y x); simpl; try done; lia.
Qed.

Lemma codeUnitCompare_sign_trans (a : jsstring) :
  forall b c,
    signOf (Host.codeUnitCompare a b) <> Gt ->
    signOf (Host.codeUnitCompare b c) <> Gt ->
    signOf (Host.codeUnitCompare a c) <> Gt.
Proof.
  induction a as [|x a IH]; intros [|y b] [|z c]; simpl; try done.
  destruct (N.ltb_spec x y), (N.ltb_spec y x), (N.ltb_spec y z),
    (N.ltb_spec z y), (N.ltb_spec x z), (N.ltb_spec z x);
    simpl; try done; try lia.
  apply IH.
Qed.

Lemma codeUnitCompare_Comparator :
  Comparator (fun a b => signOf (Host.codeUnitCompare a b)).
Proof.
  split.
  - intros a b. apply codeUnitCompare_sign_flip.
  - intros a b c. apply codeUnitCompare_sign_trans.
Qed.



(** The formatter the rule gets without [groupDefinitions] is the one bound
    to the compiled built-in table. *)
Lemma formatClassString_default
    (localeCompare : jsstring -> jsstring -> Z)
    (twMerge : jsstring -> jsstring) (value : jsstring) :
  ClassProcessor.formatClassString (H := MiniRegExp.engine) localeCompare
    twMerge defaultGroupDefinitions value None
  = inr (Builtin.format localeCompare twMerge value).
Proof.
  unfold ClassProcessor.formatClassString, ClassProcessor.createClassFormatter,
    ClassProcessor.defaultCompiledGroups, Builtin.format.
  assert (Hc : ClassProcessor.compileGroupDefinitions
                 (H := MiniRegExp.engine) defaultGroupDefinitions
               = inr Builtin.compiledGroups) by (vm_compute; reflexivity).
  rewrite Hc. reflexivity.
Qed.



(** ** Extraction engine: the argument region *)

Section ArgumentRegion.
Import SortClasses.

(** The characters the code takes for quotes are the three quote
    characters of the specification. *)
Lemma isQuote_quoteCharacter (c : N) : isQuote c = quoteCharacter c.
Proof.
  unfold isQuote, quoteCharacter. simpl. by rewrite orb_false_r, orb_assoc.
Qed.

Lemma closesAfter_cons_S ch rest st n :
  closesAfter (ch :: rest) st (S n) <-> closesAfter rest (scanStep st ch) n.
Proof. unfold closesAfter. simpl. done. Qed.

Lemma closesAfter_cons_0 ch rest st :
  closesAfter (ch :: rest) st 0 <-> ch = 41%N /\ st = (Normal, 1).
Proof.
  unfold closesAfter. simpl. split.
  - intros [[= ->] ->]. done.
  - intros [-> ->]. done.
Qed.

(** One round of the loop that does not return: the verdict on the rest,
    from the next state, is the verdict on the whole. *)
Lemma findMatching_next ch rest st i (result : option nat) :
  ~ closesAfter (ch :: rest) st 0 ->
  match result with
  | Some k =>
      exists n, k = (i + 1) + n /\ closesAfter rest (scanStep st ch) n /\
                forall m, m < n -> ~ closesAfter rest (scanStep st ch) m
  | None => forall n, ~ closesAfter rest (scanStep st ch) n
  end ->
  match result with
  | Some k =>
      exists n, k = i + n /\ closesAfter (ch :: rest) st n /\
                forall m, m < n -> ~ closesAfter (ch :: rest) st m
  | None => forall n, ~ closesAfter (ch :: rest) st n
  end.
Proof.
  intros H0. destruct result as [k|].
  - intros (n & -> & Hn & Hmin). exists (S n). split; [lia|]. split.
    + by apply closesAfter_cons_S.
    + intros [|m] Hm; [done|]. rewrite closesAfter_cons_S.
      apply Hmin. lia.
  - intros Hnone [|n]; [done|]. rewrite closesAfter_cons_S. apply Hnone.
Qed.

Lemma findMatchingLoop_spec (rest : jsstring) :
  forall i mode depth,
    1 <= depth -> modeOk mode ->
    match findMatchingLoop rest i depth (inStringOf mode) (escapedOf mode) with
    | Some k =>
        exists n, k = i + n /\ closesAfter rest (mode, depth) n /\
                  forall m, m < n -> ~ closesAfter rest (mode, depth) m
    | None => forall n, ~ closesAfter rest (mode, depth) n
    end.
Proof.
  induction rest as [|ch rest IH]; intros i mode depth Hdepth Hmode.
  - simpl. intros n [Hl _]. rewrite lookup_nil in Hl. discriminate Hl.
  - destruct mode as [|q|q]; simpl findMatchingLoop.
    + (* outside strings *)
      destruct (isQuote ch) eqn:Hq.
      * apply findMatching_next.
        { rewrite closesAfter_cons_0. intros [-> _]. discriminate Hq. }
        rewrite isQuote_quoteCharacter in Hq.
        simpl scanStep. rewrite Hq.
        apply (IH (i + 1) (InString ch) depth Hdepth Hq).
      * pose proof Hq as Hq'. rewrite isQuote_quoteCharacter in Hq'.
        destruct (ch =? 40)%N eqn:Hopen.
        { apply findMatching_next.
          { rewrite closesAfter_cons_0. intros [-> _]. discriminate Hopen. }
          simpl scanStep. rewrite Hq', Hopen.
          apply (IH (i + 1) Normal (depth + 1)); [lia | done]. }
        destruct (ch =? 41)%N eqn:Hclose.
        { apply N.eqb_eq in Hclose as ->.
          destruct (depth - 1 =? 0) eqn:Hd.
          - apply Nat.eqb_eq in Hd. assert (depth = 1) as -> by lia.
            exists 0. split; [lia|]. split.
            + by apply closesAfter_cons_0.
            + intros m Hm. lia.
          - apply Nat.eqb_neq in Hd. apply findMatching_next.
            { rewrite closesAfter_cons_0. intros [_ [= ->]]. done. }
            simpl scanStep.
            apply (IH (i + 1) Normal (depth - 1)); [lia | done]. }
        apply findMatching_next.
        { rewrite closesAfter_cons_0. intros [-> _]. discriminate Hclose. }
        simpl scanStep. rewrite Hq', Hopen, Hclose.
        apply (IH (i + 1) Normal depth Hdepth I).
    + (* inside a string *)
      simpl in Hmode. apply findMatching_next.
      { rewrite closesAfter_cons_0. intros [_ [=]]. }
      simpl scanStep. simpl negb. rewrite ?andb_true_l.
      destruct (ch =? 92)%N eqn:Hbs.
      * apply N.eqb_eq in Hbs as ->.
        assert (Hne : (92 =? q)%N = false).
        { apply N.eqb_neq. intros <-. vm_compute in Hmode.
          discriminate Hmode. }
        rewrite Hne. apply (IH (i + 1) (Escaped q) depth Hdepth Hmode).
      * destruct (ch =? q)%N eqn:Hcq.
        -- apply (IH (i + 1) Normal depth Hdepth I).
        -- apply (IH (i + 1) (InString q) depth Hdepth Hmode).
    + (* after a backslash inside a string *)
      simpl in Hmode. apply findMatching_next.
      { rewrite closesAfter_cons_0. intros [_ [=]]. }
      simpl scanStep. simpl negb. rewrite ?andb_false_l.
      apply (IH (i + 1) (InString q) depth Hdepth Hmode).
Qed.

Lemma closesAt_closesAfter text openParenIndex n :
  closesAt text openParenIndex (openParenIndex + 1 + n) <->
  closesAfter (drop (openParenIndex + 1) text) (Normal, 1) n.
Proof.
  unfold closesAt, closesAfter, scanState, slice.
  rewrite lookup_drop.
  replace (openParenIndex + 1 + n - (openParenIndex + 1)) with n by lia.
  split.
  - intros (_ & Hl & Hs). done.
  - intros (Hl & Hs). repeat split; [lia | done | done].
Qed.

Lemma startsWith_nil (s : jsstring) : startsWith s [] = true.
Proof. by destruct s. Qed.

Lemma indexOfFrom_char (s : jsstring) (c : N) :
  forall i0,
    match indexOfFrom s [c] i0 with
    | Some k =>
        exists n, k = i0 + n /\ s !! n = Some c /\
                  forall j, j < n -> s !! j <> Some c
    | None => c ∉ s
    end.
Proof.
  induction s as [|b s IH]; intros i0; simpl.
  - apply not_elem_of_nil.
  - rewrite startsWith_nil, andb_true_r.
    destruct (c =? b)%N eqn:Hcb.
    + apply N.eqb_eq in Hcb as ->. exists 0. repeat split; [lia|]. lia.
    + apply N.eqb_neq in Hcb. specialize (IH (S i0)).
      destruct (indexOfFrom s [c] (S i0)) as [k|].
      * destruct IH as (n & -> & Hn & Hmin). exists (S n).
        repeat split; [lia | done |].
        intros [|j] Hj; simpl; [congruence | apply Hmin; lia].
      * rewrite elem_of_cons. intros [->|Hin]; done.
Qed.

Lemma findMatchingParenIndex_spec text openParenIndex :
  match findMatchingParenIndex text openParenIndex with
  | Some i =>
      closesAt text openParenIndex i /\
      forall j, j < i -> ~ closesAt text openParenIndex j
  | None => forall i, ~ closesAt text openParenIndex i
  end.
Proof.
  unfold findMatchingParenIndex.
  pose proof (findMatchingLoop_spec (drop (openParenIndex + 1) text)
                (openParenIndex + 1) Normal 1 (le_n 1) I) as Hloop.
  simpl inStringOf in Hloop. simpl escapedOf in Hloop.
  destruct (findMatchingLoop (drop (openParenIndex + 1) text)
              (openParenIndex + 1) 1 None false) as [k|].
  - destruct Hloop as (n & -> & Hn & Hmin). split.
    + by apply closesAt_closesAfter.
    + intros j Hj Hc. pose proof Hc as (Hlt & _).
      replace j with (openParenIndex + 1 + (j - openParenIndex - 1)) in Hc
        by lia.
      apply closesAt_closesAfter in Hc. apply Hmin in Hc; [done | lia].
  - intros i Hc. pose proof Hc as (Hlt & _).
    replace i with (openParenIndex + 1 + (i - openParenIndex - 1)) in Hc
      by lia.
    apply closesAt_closesAfter in Hc. by apply Hloop in Hc.
Qed.

(** C7.  [findMatchingParenIndex] returns the first position after the
    opening parenthesis that holds a closing parenthesis read outside
    quoted regions at depth 1, for the scanner of the specification (the
    double quote, the single quote and the backtick open a quoted region
    that the same character closes, depth is counted outside quoted
    regions only, a backslash inside one escapes the next character), and
    [-1] exactly when there is no such position.  So a parenthesis inside
    a literal of any of the three kinds does not end the region, nor does
    one behind an escaped quote, nor one behind a quote of another kind;
    a nested call is skipped as a whole.  For
    an outer match the scan starts at the first opening parenthesis of the
    matched text, and what is emitted comes from the region between that
    parenthesis and the closing one; a match without parenthesis, or whose
    parenthesis never closes, emits nothing.  On the text of the
    nested-call example the region ends at the last parenthesis, the (cn,
    quoted string) entry emits the first literal only, and the literal is
    formatted as the specification says, for every locale order and every
    resolver that leaves the four sorted classes as they are. *)
Theorem argument_region_balanced_parentheses :
  (forall text openParenIndex i,
      findMatchingParenIndex text openParenIndex = Some i <->
      closesAt text openParenIndex i /\
      forall j, j < i -> ~ closesAt text openParenIndex j) /\
  (forall text openParenIndex,
      findMatchingParenIndex text openParenIndex = None <->
      forall i, ~ closesAt text openParenIndex i) /\
  (findMatchingParenIndex (js "f(')')") 1 = Some 5 /\
   findMatchingParenIndex (js "f(" ++ Builtin.dq ++ js ")" ++ Builtin.dq
                           ++ js ")") 1 = Some 5 /\
   findMatchingParenIndex (js "f(`)`)") 1 = Some 5 /\
   findMatchingParenIndex (js "f('\')')") 1 = Some 7 /\
   findMatchingParenIndex (js "f('" ++ Builtin.dq ++ js ")')") 1 = Some 6 /\
   findMatchingParenIndex (js "f(g(')'), x)") 1 = Some 11 /\
   findMatchingParenIndex (js "f(')") 1 = None) /\
  (forall (engine : RegExpEngine) text innerRegex outerMatch,
      match indexOf (match0 outerMatch) (js "(") with
      | None =>
          (40%N ∉ match0 outerMatch) /\
          outerMatchEmits text innerRegex outerMatch = Some []
      | Some openRel =>
          match0 outerMatch !! openRel = Some 40%N /\
          (forall j, j < openRel -> match0 outerMatch !! j <> Some 40%N) /\
          match findMatchingParenIndex text (index outerMatch + openRel) with
          | None => outerMatchEmits text innerRegex outerMatch = Some []
          | Some closeAbs =>
              outerMatchEmits text innerRegex outerMatch
              = regionEmits text innerRegex (index outerMatch + openRel + 1)
                  (slice text (index outerMatch + openRel + 1) closeAbs)
          end
      end) /\
  let text := js "cn('relative size-full  rounded text-sm ', props.class)" in
  let entry := Pair (js "cn\(([^)]*)\)") Builtin.STRING_ARGUMENT_REGEX in
  findMatchingParenIndex text 2 = Some 54 /\
  applyRegexEntry (H := MiniRegExp.engine) text entry
  = inr (Some [{| range := (4, 40);
                  value := js "relative size-full  rounded text-sm " |}]) /\
  forall localeCompare twMerge,
    twMerge (js "relative size-full text-sm rounded")
    = js "relative size-full text-sm rounded" ->
    Builtin.format localeCompare twMerge
      (js "relative size-full  rounded text-sm ")
    = Some (js "relative size-full text-sm rounded").
Proof.
  split; [|split; [|split; [|split]]].
  - intros text o i.
    pose proof (findMatchingParenIndex_spec text o) as Hspec.
    destruct (findMatchingParenIndex text o) as [k|].
    + destruct Hspec as [Hk Hmin]. split.
      * intros [= <-]. done.
      * intros [Hi Hmini]. f_equal.
        destruct (Nat.lt_trichotomy k i) as [Hlt|[Heq|Hgt]]; [|done|].
        -- by apply Hmini in Hlt.
        -- by apply Hmin in Hgt.
    + split; [done|]. intros [Hi _]. by apply Hspec in Hi.
  - intros text o.
    pose proof (findMatchingParenIndex_spec text o) as Hspec.
    destruct (findMatchingParenIndex text o) as [k|].
    + destruct Hspec as [Hk _]. split; [done|]. intros Hnone.
      by apply Hnone in Hk.
    + done.
  - repeat split; vm_compute; reflexivity.
  - intros engine text innerRegex outerMatch. unfold outerMatchEmits.
    change (js "(") with [40%N]. unfold indexOf.
    pose proof (indexOfFrom_char (match0 outerMatch) 40 0) as Hfirst.
    destruct (indexOfFrom (match0 outerMatch) [40%N] 0) as [openRel|].
    + destruct Hfirst as (n & -> & Hn & Hmin). simpl.
      repeat split; [done | done |].
      destruct (findMatchingParenIndex text (index outerMatch + n)); done.
    + done.
  - intros text entry. split; [vm_compute; reflexivity|].
    split; [vm_compute; reflexivity|].
    intros localeCompare twMerge Hmerge. vm_compute in Hmerge.
    unfold Builtin.format.
    erewrite formatWithGroups_several.
    2-5: vm_compute; reflexivity.
    2: rewrite Hmerge; vm_compute; reflexivity.
    vm_compute. reflexivity.
Qed.

End ArgumentRegion.

(** The formatting step of the nested-call example with the resolver that
    keeps every class. *)
Lemma argument_region_balanced_parentheses_witness :
  Builtin.format Host.codeUnitCompare Host.keepAllMerge
    (js "relative size-full  rounded text-sm ")
  = Some (js "relative size-full text-sm rounded").
Proof.
  destruct argument_region_balanced_parentheses
    as (_ & _ & _ & _ & _ & _ & Hformat).
  apply Hformat. vm_compute. reflexivity.
Defined.

(** ** Extraction engine: what the loops emit *)

Section Emission.
Context `{RegExpEngine}.
Import SortClasses.

Lemma search_from r s tries :
  forall i0 i m, search r s tries i0 = Some (i, m) -> i0 <= i.
Proof.
  induction tries as [|tries IH]; intros i0 i m; simpl; [done|].
  destruct (matcher r s i0) as [m0|].
  - intros [= <- _]. done.
  - intros Hs. apply IH in Hs. lia.
Qed.

(** A successful [exec] starts within the string and leaves [lastIndex]
    where it was or further; past a non-empty match, strictly further. *)
Lemma exec_progress r s lastIndex m lastIndex' :
  exec r s lastIndex = (Some m, lastIndex') ->
  lastIndex <= length s /\ lastIndex <= lastIndex' /\
  (truthy (match0 m) = true -> lastIndex < lastIndex').
Proof.
  unfold exec. destruct (length s <? lastIndex) eqn:Hlen; [done|].
  apply Nat.ltb_ge in Hlen.
  destruct (search r s (S (length s - lastIndex)) lastIndex)
    as [[i ms]|] eqn:Hs; [|done].
  intros [= <- <-]. apply search_from in Hs.
  repeat split; [done | lia |].
  simpl. unfold slice.
  replace (i + matchedLength ms - i) with (matchedLength ms) by lia.
  destruct (matchedLength ms); [|lia].
  rewrite take_0. done.
Qed.

Lemma exec_past_end r s lastIndex :
  length s < lastIndex -> fst (exec r s lastIndex) = None.
Proof.
  intros Hlt. unfold exec. apply Nat.ltb_lt in Hlt. rewrite Hlt. done.
Qed.

Lemma innerLoop_total target regex containerOffset text budget :
  forall lastIndex processedRanges matched emitted,
    1 <= budget -> length target + 2 <= budget + lastIndex ->
    is_Some (innerLoop budget target regex containerOffset text lastIndex
               processedRanges matched emitted).
Proof.
  induction budget as [|budget IH];
    intros lastIndex processed matched emitted Hb Hle; [lia|].
  simpl.
  destruct (exec regex target lastIndex) as [[m|] lastIndex'] eqn:He;
    [|by eexists].
  destruct (exec_progress _ _ _ _ _ He) as (Hin & Hmono & Hstrict).
  destruct (truthy (match0 m)) eqn:Ht; simpl.
  - specialize (Hstrict eq_refl).
    destruct (bool_decide _); apply IH; lia.
  - apply IH; lia.
Qed.

Lemma innerLoop_distinct target regex containerOffset text budget :
  forall lastIndex (processedRanges : gset (nat * nat)) matched emitted result,
    NoDup (map range emitted) ->
    (forall r, r ∈ processedRanges <-> r ∈ map range emitted) ->
    innerLoop budget target regex containerOffset text lastIndex
      processedRanges matched emitted = Some result ->
    NoDup (map range (snd result)).
Proof.
  induction budget as [|budget IH];
    intros lastIndex processed matched emitted result Hnd Hset; [done|].
  simpl.
  destruct (exec regex target lastIndex) as [[m|] lastIndex'] eqn:He.
  2: { intros [= <-]. done. }
  destruct (truthy (match0 m)); simpl; [|by apply IH].
  set (innerValue := default (match0 m) (match1 m)).
  set (start := containerOffset
                + (index m + findCaptureOffset (match0 m) innerValue)).
  set (stop := start + length innerValue).
  destruct (bool_decide ((start, stop) ∈ processed)) eqn:Hseen.
  - by apply IH.
  - apply bool_decide_eq_false in Hseen. apply IH.
    + rewrite map_app. simpl. apply NoDup_app. repeat split.
      * done.
      * intros r Hr Hr'. apply list_elem_of_singleton in Hr' as ->.
        apply Hseen, Hset, Hr.
      * apply NoDup_singleton.
    + intros r. rewrite map_app, elem_of_app, elem_of_union. simpl.
      rewrite elem_of_singleton, list_elem_of_singleton, Hset. tauto.
Qed.

Lemma extractLoop_distinct (rest : jsstring) :
  forall i scan literals,
    NoDup (map lit_start literals) ->
    match scan with
    | Between => Forall (fun l => lit_start l <= i) literals
    | Inside _ start _ _ =>
        start < i /\ Forall (fun l => lit_start l <= start) literals
    end ->
    NoDup (map lit_start (extractLoop rest i scan literals)).
Proof.
  induction rest as [|char rest IH]; intros i scan literals Hnd Hb; [done|].
  simpl. destruct scan as [|quote start value prev].
  - destruct (isQuote char); apply IH; try done.
    + split; [lia | done].
    + eapply Forall_impl; [exact Hb|]. simpl. lia.
  - destruct Hb as [Hlt Hb].
    destruct ((char =? quote)%N && negb (prev =? 92)%N).
    + apply IH.
      * rewrite map_app. simpl. apply NoDup_app. repeat split.
        -- done.
        -- intros s Hs Hs'. apply list_elem_of_singleton in Hs' as ->.
           apply list_elem_of_fmap in Hs as (l & Hl & Hin).
           rewrite Forall_forall in Hb. apply Hb in Hin. lia.
        -- apply NoDup_singleton.
      * apply Forall_app. split.
        -- eapply Forall_impl; [exact Hb|]. simpl. lia.
        -- constructor; [simpl; lia | constructor].
    + apply IH; [done|]. split; [lia | done].
Qed.

Lemma NoDup_map_through {A B C} (f : A -> B) (g : B -> C) (l : list A) :
  NoDup (map (fun x => g (f x)) l) -> NoDup (map f l).
Proof.
  intros Hnd. apply (NoDup_fmap_1 g). rewrite <- list_fmap_compose.
  exact Hnd.
Qed.

Lemma regionEmits_total text innerRegex containerOffset container :
  is_Some (regionEmits text innerRegex containerOffset container).
Proof.
  unfold regionEmits. destruct innerRegex as [regex|].
  - unfold processInnerMatches.
    destruct (innerLoop_total container regex containerOffset text
                (length container + 2) 0 ∅ false []) as [res Hres];
      [lia | lia |].
    rewrite Hres. by eexists.
  - destruct (0 <? length (extractStringLiterals container)); by eexists.
Qed.

Lemma regionEmits_distinct text innerRegex containerOffset container ms :
  regionEmits text innerRegex containerOffset container = Some ms ->
  NoDup (map range ms).
Proof.
  unfold regionEmits. destruct innerRegex as [regex|].
  - unfold processInnerMatches. intros Hms.
    destruct (innerLoop (length container + 2) container regex
                containerOffset text 0 ∅ false []) as [res|] eqn:Hres;
      [|done].
    injection Hms as <-.
    eapply innerLoop_distinct; [| |exact Hres].
    + constructor.
    + intros r. simpl. rewrite elem_of_empty, elem_of_nil. done.
  - destruct (0 <? length (extractStringLiterals container)).
    + intros [= <-]. rewrite map_map. simpl.
      apply (NoDup_map_through
               (fun lit => (containerOffset + lit_start lit,
                            containerOffset + lit_end lit))
               (fun r => fst r - containerOffset)).
      simpl.
      assert (Hstarts : NoDup (map lit_start
                                 (extractStringLiterals container))).
      { apply extractLoop_distinct; constructor. }
      erewrite map_ext; [exact Hstarts|]. intros lit. simpl. lia.
    + intros [= <-]. simpl. apply NoDup_singleton.
Qed.

Lemma outerMatchEmits_total text innerRegex outerMatch :
  is_Some (outerMatchEmits text innerRegex outerMatch).
Proof.
  unfold outerMatchEmits.
  destruct (indexOf (match0 outerMatch) (js "(")) as [openRel|];
    [|by eexists].
  destruct (findMatchingParenIndex text (index outerMatch + openRel));
    [|by eexists].
  apply regionEmits_total.
Qed.

(** C9, as the code has it.  What one outer match emits (through the inner
    pattern, or else the quoted literals of its region, or else the region
    itself) is produced within the iteration budget and holds no two
    matches with the same range.  Nothing is remembered from one outer
    match to the next. *)
Theorem one_outer_match_emits_distinct_ranges
    (text : jsstring) (innerRegex : option RegExp)
    (outerMatch : RegExpExecArray) :
  (exists ms, outerMatchEmits text innerRegex outerMatch = Some ms) /\
  (forall ms,
      outerMatchEmits text innerRegex outerMatch = Some ms ->
      NoDup (map range ms)).
Proof.
  split; [apply outerMatchEmits_total|].
  unfold outerMatchEmits.
  destruct (indexOf (match0 outerMatch) (js "(")) as [openRel|].
  2: { intros ms [= <-]. constructor. }
  destruct (findMatchingParenIndex text (index outerMatch + openRel))
    as [closeAbs|].
  2: { intros ms [= <-]. constructor. }
  intros ms. apply regionEmits_distinct.
Qed.

Lemma outerLoop_total text outerRegex innerRegex budget :
  forall lastIndex emitted,
    1 <= budget -> length text + 2 <= budget + lastIndex ->
    is_Some (outerLoop budget text outerRegex innerRegex lastIndex emitted).
Proof.
  induction budget as [|budget IH]; intros lastIndex emitted Hb Hle; [lia|].
  simpl.
  destruct (exec outerRegex text lastIndex) as [[m|] lastIndex'] eqn:He;
    [|by eexists].
  destruct (exec_progress _ _ _ _ _ He) as (Hin & Hmono & Hstrict).
  destruct (truthy (match0 m)) eqn:Ht; simpl.
  - specialize (Hstrict eq_refl).
    destruct (outerMatchEmits_total text innerRegex m) as [ms ->].
    apply IH; lia.
  - apply IH; lia.
Qed.

(** [applyRegexEntry] never runs out of its iteration budget. *)
Lemma applyRegexEntry_total text entry :
  applyRegexEntry text entry <> inr None.
Proof.
  unfold applyRegexEntry, createRegExp.
  destruct (RegExp_new _) as [e|outerRegex]; simpl; [done|].
  assert (Hloop : forall innerRegex,
             inr (outerLoop (length text + 2) text outerRegex innerRegex 0 [])
             <> (inr None : SyntaxError + option (list RangeMatch))).
  { intros innerRegex.
    destruct (outerLoop_total text outerRegex innerRegex (length text + 2)
                0 []) as [ms ->]; [lia | lia | done]. }
  destruct entry as [o|o i]; simpl; [apply Hloop|].
  destruct (truthy i); simpl; [|apply Hloop].
  destruct (RegExp_new i) as [e|innerRegex]; simpl; [done | apply Hloop].
Qed.

End Emission.

(** C9, counterexample.  With the built-in [cn] pattern, the first outer
    match of [cn(fn(), cn('a'))] stops at the parenthesis of [fn()] while
    its region runs to the end of the text; the second outer match is the
    nested call.  The literal lies in both regions and is emitted twice
    with the same range, with the inner pattern and without it. *)
Lemma one_entry_pass_emits_a_range_twice :
  let text := js "cn(fn(), cn('a'))" in
  let twice := [{| range := (13, 14); value := js "a" |};
                {| range := (13, 14); value := js "a" |}] in
  SortClasses.applyRegexEntry (H := MiniRegExp.engine) text
    (Pair (js "cn\(([^)]*)\)") Builtin.STRING_ARGUMENT_REGEX)
  = inr (Some twice) /\
  SortClasses.applyRegexEntry (H := MiniRegExp.engine) text
    (Single (js "cn\(([^)]*)\)"))
  = inr (Some twice).
Proof. split; vm_compute; reflexivity. Qed.

(** C8, at a failing input.  The inner pattern matches the whole region
    ['a', 'a'] of [cn('a', 'a')] and its group captures the second literal,
    at offset 6 of the region, that is at 9 in the text.  The capture is
    looked up by its text in the whole match, which finds the first
    literal: the emitted range is (4, 5).  The emitted value is the text of
    the capture all the same. *)
Theorem emitted_range_is_first_occurrence_of_capture :
  let text := js "cn('a', 'a')" in
  let inner := js "'[^']*', '([^']*)'" in
  match @RegExp_new MiniRegExp.engine inner with
  | inr regex => fst (exec regex (js "'a', 'a'") 0)
  | inl _ => None
  end
  = Some {| index := 0; match0 := js "'a', 'a'"; match1 := Some (js "a");
            group1Index := Some 6 |} /\
  SortClasses.findCaptureOffset (js "'a', 'a'") (js "a") = 1 /\
  SortClasses.applyRegexEntry (H := MiniRegExp.engine) text
    (Pair (js "cn\(([^)]*)\)") inner)
  = inr (Some [{| range := (4, 5); value := js "a" |}]).
Proof.
  repeat split; vm_compute; reflexivity.
Qed.

(** * Further properties *)

(** ** Collapsing white space *)

Section Whitespace.
Import ClassProcessor.

Lemma dropWhile_split s :
  exists run, s = run ++ dropWhile isWhiteSpace s /\
              Forall (fun c => isWhiteSpace c = true) run /\
              headOk (dropWhile isWhiteSpace s).
Proof.
  induction s as [|c r (run & Hs & Hrun & Hhead)]; simpl.
  - exists []. repeat split; constructor.
  - destruct (isWhiteSpace c) eqn:Hc.
    + exists (c :: run). simpl. rewrite <- Hs. repeat split; [|done].
      by constructor.
    + exists []. repeat split; [constructor | exact Hc].
Qed.

Lemma dropWhile_headOk s : headOk s -> dropWhile isWhiteSpace s = s.
Proof. destruct s as [|c r]; simpl; [done|]. by intros ->. Qed.

Lemma headOk_app s t : s <> [] -> headOk (s ++ t) <-> headOk s.
Proof. by destruct s. Qed.

Lemma trim_headOk v : headOk (trim v) /\ headOk (rev (trim v)).
Proof.
  unfold trim, trimEnd, trimStart.
  destruct (dropWhile_split v) as (run1 & _ & _ & Ha).
  set (a := dropWhile isWhiteSpace v) in *.
  destruct (dropWhile_split (rev a)) as (run2 & Hra & _ & Hb).
  set (b := dropWhile isWhiteSpace (rev a)) in *.
  split; [|by rewrite rev_involutive].
  assert (Ha' : a = rev b ++ rev run2).
  { rewrite <- rev_app_distr, <- Hra, rev_involutive. done. }
  destruct (rev b) as [|c r] eqn:Hrb; [done|].
  rewrite Ha' in Ha. exact Ha.
Qed.

Lemma trim_fixed s : headOk s -> headOk (rev s) -> trim s = s.
Proof.
  intros Hs Hr. unfold trim, trimEnd, trimStart.
  rewrite (dropWhile_headOk s Hs), (dropWhile_headOk _ Hr).
  apply rev_involutive.
Qed.

(** What replacing the first run does: nothing when there is no white
    space, else one space for the run, the rest untouched. *)
Lemma replaceFirstWhitespaceRun_split s :
  (noWhiteSpace s /\ replaceFirstWhitespaceRun s = s) \/
  exists before run after c,
    s = before ++ (c :: run) ++ after /\ noWhiteSpace before /\
    Forall (fun c => isWhiteSpace c = true) (c :: run) /\ headOk after /\
    replaceFirstWhitespaceRun s = before ++ 32%N :: after.
Proof.
  induction s as [|c r IH]; simpl.
  - left. split; [constructor | done].
  - destruct (isWhiteSpace c) eqn:Hc.
    + right. destruct (dropWhile_split r) as (run & Hr & Hrun & Hhead).
      exists [], run, (dropWhile isWhiteSpace r), c. simpl.
      rewrite <- Hr. repeat split; try done; by constructor.
    + destruct IH as [[Hnw ->]|(before & run & after & d & -> & Hb & Hrun & Hh & ->)].
      * left. split; [by constructor | done].
      * right. exists (c :: before), run, after, d. simpl.
        repeat split; try done. by constructor.
Qed.

Lemma replaceFirstWhitespaceRun_idempotent s :
  replaceFirstWhitespaceRun (replaceFirstWhitespaceRun s)
  = replaceFirstWhitespaceRun s.
Proof.
  induction s as [|c r IH]; simpl; [done|].
  destruct (isWhiteSpace c) eqn:Hc; simpl.
  - f_equal. apply dropWhile_headOk.
    by destruct (dropWhile_split r) as (_ & _ & _ & Hh).
  - by rewrite Hc, IH.
Qed.

Lemma replaceFirstWhitespaceRun_headOk s :
  headOk s -> headOk (rev s) ->
  headOk (replaceFirstWhitespaceRun s) /\
  headOk (rev (replaceFirstWhitespaceRun s)).
Proof.
  intros Hs Hr.
  destruct (replaceFirstWhitespaceRun_split s)
    as [[_ ->]|(before & run & after & c & -> & Hb & Hrun & Hh & ->)];
    [done|].
  apply Forall_cons in Hrun as [Hc Hrun]. split.
  - destruct before as [|b before]; simpl in *; [congruence | done].
  - rewrite rev_app_distr. simpl. rewrite <- app_assoc.
    rewrite !rev_app_distr in Hr. simpl in Hr.
    destruct after as [|a after _] using rev_ind.
    + simpl in Hr. rewrite <- !app_assoc in Hr.
      destruct run as [|x run _] using rev_ind.
      * simpl in Hr. congruence.
      * rewrite rev_app_distr in Hr. simpl in Hr.
        apply Forall_app in Hrun as [_ Hx]. apply Forall_cons in Hx as [Hx _].
        congruence.
    + rewrite rev_app_distr in Hr |- *. simpl in *. exact Hr.
Qed.

Lemma collapseWhitespace_collapsed value :
  collapseWhitespace (collapseWhitespace value) = collapseWhitespace value.
Proof.
  unfold collapseWhitespace.
  destruct (trim_headOk value) as [H1 H2].
  destruct (replaceFirstWhitespaceRun_headOk _ H1 H2) as [H3 H4].
  by rewrite (trim_fixed _ H3 H4), replaceFirstWhitespaceRun_idempotent.
Qed.

(** X1.  Collapsing is idempotent.  Whatever the value, the collapsed
    value is a fixed point of [collapseWhitespace]; it is already trimmed
    and neither starts nor ends with white space. *)
Theorem collapseWhitespace_idempotent value :
  let collapsed := collapseWhitespace value in
  collapseWhitespace collapsed = collapsed /\
  trim collapsed = collapsed /\
  headOk collapsed /\ headOk (rev collapsed).
Proof.
  intros collapsed. unfold collapsed, collapseWhitespace.
  destruct (trim_headOk value) as [H1 H2].
  destruct (replaceFirstWhitespaceRun_headOk _ H1 H2) as [H3 H4].
  rewrite (trim_fixed _ H3 H4), replaceFirstWhitespaceRun_idempotent.
  done.
Qed.

End Whitespace.

(** ** Sorting with a comparator that threads a cache *)

Section SortWithState.
Import ClassProcessor.
Context {S : Type}.
Variable compare : jsstring -> jsstring -> S -> Z * S.
Variable cmp : jsstring -> jsstring -> comparison.
Variable inv : S -> Prop.
Hypothesis compare_refines :
  forall x y st,
    inv st ->
    signOf (fst (compare x y st)) = cmp x y /\ inv (snd (compare x y st)).

Lemma ltb_signOf c : (c <? 0)%Z = true <-> signOf c = Lt.
Proof. unfold signOf, Z.ltb. destruct (c ?= 0)%Z; split; congruence. Qed.

Lemma sortInsert_inv x sorted :
  forall st, inv st -> inv (snd (sortInsert compare x sorted st)).
Proof.
  induction sorted as [|y rest IH]; intros st Hst; simpl; [done|].
  destruct (compare_refines x y st Hst) as [_ Hst'].
  destruct (compare x y st) as [c st']. simpl in Hst'.
  destruct (c <? 0)%Z; simpl; [done|].
  specialize (IH st' Hst').
  destruct (sortInsert compare x rest st') as [rest' st'']. done.
Qed.

Lemma sortInsert_perm x sorted :
  forall st, fst (sortInsert compare x sorted st) ≡ₚ x :: sorted.
Proof.
  induction sorted as [|y rest IH]; intros st; simpl; [done|].
  destruct (compare x y st) as [c st'].
  destruct (c <? 0)%Z; simpl; [done|].
  specialize (IH st').
  destruct (sortInsert compare x rest st') as [rest' st'']. simpl in *.
  rewrite IH. apply perm_swap.
Qed.

Lemma sortInsert_sorted x sorted :
  Comparator cmp ->
  forall st,
    inv st -> StronglySorted (notAfter cmp) sorted ->
    StronglySorted (notAfter cmp) (fst (sortInsert compare x sorted st)).
Proof.
  intros Hcmp. induction sorted as [|y rest IH]; intros st Hst Hsorted; simpl.
  - repeat constructor.
  - apply StronglySorted_inv in Hsorted as [Hrest Hy].
    destruct (compare_refines x y st Hst) as [Hsign Hst'].
    destruct (compare x y st) as [c st']. simpl in Hsign, Hst'.
    destruct (c <? 0)%Z eqn:Hlt; simpl.
    + apply ltb_signOf in Hlt. rewrite Hsign in Hlt.
      constructor; [by constructor|]. constructor.
      * unfold notAfter. congruence.
      * eapply Forall_impl; [exact Hy|]. intros z Hz. unfold notAfter in *.
        apply (cmp_trans _ Hcmp x y z); congruence.
    + assert (Hyx : notAfter cmp y x).
      { unfold notAfter. rewrite (cmp_flip _ Hcmp x y).
        destruct (cmp x y) eqn:E; simpl; try congruence.
        apply ltb_signOf in Hsign. congruence. }
      specialize (IH st' Hst' Hrest).
      pose proof (sortInsert_perm x rest st') as Hperm.
      destruct (sortInsert compare x rest st') as [rest' st'']. simpl in *.
      constructor; [done|]. rewrite Hperm. by constructor.
Qed.

Lemma sortInsert_last x sorted :
  forall st,
    inv st -> Forall (fun y => cmp x y <> Lt) sorted ->
    fst (sortInsert compare x sorted st) = sorted ++ [x].
Proof.
  induction sorted as [|y rest IH]; intros st Hst Hall; simpl; [done|].
  apply Forall_cons in Hall as [Hy Hall].
  destruct (compare_refines x y st Hst) as [Hsign Hst'].
  destruct (compare x y st) as [c st']. simpl in Hsign, Hst'.
  destruct (c <? 0)%Z eqn:Hlt; simpl.
  - apply ltb_signOf in Hlt. congruence.
  - specialize (IH st' Hst' Hall).
    destruct (sortInsert compare x rest st') as [rest' st'']. simpl in *.
    by rewrite IH.
Qed.

Lemma sortFrom_spec todo :
  forall sorted st,
    inv st ->
    fst (sortFrom compare todo sorted st) ≡ₚ sorted ++ todo /\
    (Comparator cmp -> StronglySorted (notAfter cmp) sorted ->
     StronglySorted (notAfter cmp) (fst (sortFrom compare todo sorted st))) /\
    (Comparator cmp -> StronglySorted (notAfter cmp) (sorted ++ todo) ->
     fst (sortFrom compare todo sorted st) = sorted ++ todo).
Proof.
  induction todo as [|x todo IH]; intros sorted st Hst; simpl.
  - rewrite app_nil_r. done.
  - pose proof (sortInsert_inv x sorted st Hst) as Hst'.
    pose proof (sortInsert_perm x sorted st) as Hperm.
    pose proof (fun H => sortInsert_sorted x sorted H st Hst) as Hsorted.
    pose proof (sortInsert_last x sorted st Hst) as Hlast.
    destruct (sortInsert compare x sorted st) as [sorted' st']. simpl in *.
    destruct (IH sorted' st' Hst') as (IHperm & IHsorted & IHid).
    split; [|split].
    + rewrite IHperm, Hperm. simpl. apply Permutation_middle.
    + intros Hcmp Hs. apply IHsorted; [done|]. by apply Hsorted.
    + intros Hcmp Hs.
      assert (Hx : sorted' = sorted ++ [x]).
      { apply Hlast. apply Forall_forall. intros y Hy.
        assert (Hyx : notAfter cmp y x).
        { eapply StronglySorted_app_1_elem_of; [exact Hs | exact Hy |].
          apply list_elem_of_here. }
        unfold notAfter in Hyx. rewrite (cmp_flip _ Hcmp x y) in Hyx.
        destruct (cmp x y); simpl in Hyx; congruence. }
      subst sorted'. rewrite IHid; [by rewrite <- app_assoc | done |].
      by rewrite <- app_assoc.
Qed.

End SortWithState.

(** ** The formatter on clean tokens *)

Section FormatterResults.
Context `{RegExpEngine}.
Variable localeCompare : jsstring -> jsstring -> Z.
Variable twMerge : jsstring -> jsstring.
Import ClassProcessor.

Lemma StronglySorted_lookup {A} (R : A -> A -> Prop) (l : list A) :
  StronglySorted R l ->
  forall i j a b, i < j -> l !! i = Some a -> l !! j = Some b -> R a b.
Proof.
  induction 1 as [|x l Hl IH Hx]; intros i j a b Hij Ha Hb; [done|].
  destruct j as [|j]; [lia|]. simpl in Hb. destruct i as [|i]; simpl in Ha.
  - injection Ha as <-. rewrite Forall_forall in Hx. apply Hx.
    by eapply list_elem_of_lookup_2.
  - apply (IH i j); [lia | done | done].
Qed.

Lemma StronglySorted_sublist {A} (R : A -> A -> Prop) (l l' : list A) :
  l' `sublist_of` l -> StronglySorted R l -> StronglySorted R l'.
Proof.
  induction 1 as [|x l1 l2 Hsub IH|x l1 l2 Hsub IH]; intros Hs; [done| |].
  - apply StronglySorted_inv in Hs as [Hs Hx]. constructor; [by apply IH|].
    rewrite Forall_forall in Hx |- *. intros y Hy. apply Hx.
    by eapply elem_of_sublist.
  - apply StronglySorted_inv in Hs as [Hs _]. by apply IH.
Qed.

Lemma fourKeyOrder_weight groups a b :
  notAfter (fourKeyOrder localeCompare groups) a b ->
  groupWeight (normalized a groups) <= groupWeight (normalized b groups).
Proof.
  unfold notAfter, fourKeyOrder. intros Hab.
  destruct (Nat.compare_spec (groupWeight (normalized a groups))
              (groupWeight (normalized b groups))) as [->|Hlt|Hgt];
    [lia | lia | done].
Qed.

Lemma sort_compareClasses groups tokens :
  let sorted :=
    fst (sort (fun a b => compareClasses localeCompare a b groups) tokens ∅) in
  sorted ≡ₚ tokens /\
  (Comparator (fun a b => signOf (localeCompare a b)) ->
   StronglySorted (notAfter (fourKeyOrder localeCompare groups)) sorted) /\
  (Comparator (fun a b => signOf (localeCompare a b)) ->
   StronglySorted (notAfter (fourKeyOrder localeCompare groups)) tokens ->
   sorted = tokens).
Proof.
  intros sorted. unfold sorted, sort.
  destruct (sortFrom_spec
              (fun a b => compareClasses localeCompare a b groups)
              (fourKeyOrder localeCompare groups) (cacheOk groups)
              (compareClasses_refines localeCompare groups)
              tokens [] ∅ (cacheOk_empty groups)) as (Hperm & Hsorted & Hid).
  split; [exact Hperm|]. split.
  - intros Hlc. apply Hsorted; [|constructor].
    by apply fourKeyOrder_Comparator.
  - intros Hlc Hs. apply Hid; [|exact Hs]. by apply fourKeyOrder_Comparator.
Qed.

(** ** Clean tokens joined by single spaces *)

Lemma join_cons2 sep (p q : jsstring) rest :
  join sep (p :: q :: rest) = p ++ sep ++ join sep (q :: rest).
Proof. done. Qed.

Lemma join_clean_nonempty tokens :
  Forall cleanToken tokens -> tokens <> [] -> join (js " ") tokens <> [].
Proof.
  intros Hall Hne. destruct Hall as [|p rest [Hp _] _]; [done|].
  destruct rest; simpl; [done|]. by destruct p.
Qed.

Lemma noWhiteSpace_headOk t : noWhiteSpace t -> headOk t /\ headOk (rev t).
Proof.
  intros Ht. split.
  - by destruct Ht.
  - apply Forall_rev in Ht. by destruct Ht.
Qed.

Lemma join_clean_headOk tokens :
  Forall cleanToken tokens ->
  headOk (join (js " ") tokens) /\ headOk (rev (join (js " ") tokens)).
Proof.
  induction 1 as [|p rest [Hne Hp] Hrest IH]; [done|].
  destruct rest as [|q rest]; [by apply noWhiteSpace_headOk|].
  rewrite join_cons2. split.
  - apply headOk_app; [done|]. by apply noWhiteSpace_headOk.
  - rewrite !rev_app_distr, <- app_assoc. apply headOk_app; [|apply IH].
    intros Hnil. apply (f_equal (@rev N)) in Hnil.
    rewrite rev_involutive in Hnil.
    by apply (join_clean_nonempty (q :: rest)) in Hnil.
Qed.

Lemma replaceFirstWhitespaceRun_app t c u :
  noWhiteSpace t -> isWhiteSpace c = true ->
  replaceFirstWhitespaceRun (t ++ c :: u)
  = t ++ 32%N :: dropWhile isWhiteSpace u.
Proof.
  induction 1 as [|x t Hx _ IH]; intros Hc; simpl.
  - by rewrite Hc.
  - by rewrite Hx, IH.
Qed.

Lemma split_app t u :
  noWhiteSpace t -> split 32 (t ++ 32%N :: u) = t :: split 32 u.
Proof.
  induction 1 as [|x t Hx _ IH]; simpl; [done|].
  destruct (x =? 32)%N eqn:Hsp.
  - apply N.eqb_eq in Hsp as ->. discriminate Hx.
  - by rewrite IH.
Qed.

Lemma collapseWhitespace_join tokens :
  Forall cleanToken tokens ->
  collapseWhitespace (join (js " ") tokens) = join (js " ") tokens.
Proof.
  intros Hall. unfold collapseWhitespace.
  destruct (join_clean_headOk tokens Hall) as [H1 H2].
  rewrite (trim_fixed _ H1 H2). clear H1 H2.
  induction Hall as [|p rest [Hne Hp] Hrest IH]; [done|].
  destruct rest as [|q rest].
  - by apply replaceFirstWhitespaceRun_noWhiteSpace.
  - rewrite join_cons2. change (js " " ++ ?x) with (32%N :: x).
    rewrite replaceFirstWhitespaceRun_app; [|done|reflexivity].
    rewrite dropWhile_headOk; [done|]. by apply join_clean_headOk.
Qed.

Lemma split_join tokens :
  Forall cleanToken tokens -> tokens <> [] ->
  split 32 (join (js " ") tokens) = tokens.
Proof.
  induction 1 as [|p rest [Hne Hp] Hrest IH]; intros Hnil; [done|].
  destruct rest as [|q rest].
  - by apply split_noWhiteSpace.
  - rewrite join_cons2. change (js " " ++ ?x) with (32%N :: x).
    rewrite split_app by done. by rewrite IH.
Qed.

Lemma filter_truthy_clean tokens :
  Forall cleanToken tokens -> List.filter truthy tokens = tokens.
Proof.
  induction 1 as [|p rest [Hne _] _ IH]; simpl; [done|].
  destruct p; [done|]. simpl. by rewrite IH.
Qed.

Lemma tokens_of_join tokens :
  Forall cleanToken tokens -> tokens <> [] ->
  List.filter truthy (split 32 (collapseWhitespace (join (js " ") tokens)))
  = tokens.
Proof.
  intros Hall Hne.
  by rewrite collapseWhitespace_join, split_join, filter_truthy_clean.
Qed.

Lemma formatWithGroups_few value groups :
  (length (List.filter truthy (split 32 (collapseWhitespace value))) <=? 1)
  = true ->
  formatWithGroups localeCompare twMerge value groups
  = if negb (truthy (collapseWhitespace value)) then None
    else if eqb (collapseWhitespace value) value then None
         else Some (collapseWhitespace value).
Proof.
  intros Hlen. unfold formatWithGroups. cbv zeta. rewrite Hlen. done.
Qed.

(** A sorted list of clean tokens that the resolver leaves as it is comes
    back as [null]. *)
Lemma formatWithGroups_sorted_clean groups tokens :
  Comparator (fun a b => signOf (localeCompare a b)) ->
  Forall cleanToken tokens ->
  StronglySorted (notAfter (fourKeyOrder localeCompare groups)) tokens ->
  twMerge (join (js " ") tokens) = join (js " ") tokens ->
  formatWithGroups localeCompare twMerge (join (js " ") tokens) groups = None.
Proof.
  intros Hlc Hall Hsorted Hmerge.
  pose proof (collapseWhitespace_join tokens Hall) as Hc.
  destruct (decide (length tokens <= 1)) as [Hfew|Hmany].
  - rewrite formatWithGroups_few.
    + rewrite Hc, eqb_true by done. by destruct (negb _).
    + destruct tokens as [|p [|q rest]]; [done | | simpl in Hfew; lia].
      rewrite tokens_of_join; done.
  - assert (Hne : tokens <> []) by (intros ->; simpl in Hmany; lia).
    rewrite (formatWithGroups_several localeCompare twMerge _ groups
               (join (js " ") tokens) (join (js " ") tokens)
               (join (js " ") tokens)).
    + by rewrite !eqb_true.
    + exact Hc.
    + pose proof (join_clean_nonempty tokens Hall Hne).
      by destruct (join (js " ") tokens).
    + rewrite <- Hc at 1. rewrite tokens_of_join by done.
      apply Nat.leb_gt. lia.
    + unfold sortedClassList. rewrite tokens_of_join by done.
      destruct (sort_compareClasses groups tokens) as (_ & _ & Hid).
      by rewrite Hid.
    + by rewrite Hmerge.
Qed.

End FormatterResults.

(** ** What the formatter returns *)

Section FormatterTheorems.
Context `{RegExpEngine}.
Variable localeCompare : jsstring -> jsstring -> Z.
Variable twMerge : jsstring -> jsstring.
Import ClassProcessor.

Lemma eqb_spec (a b : jsstring) : eqb a b = true <-> a = b.
Proof. unfold eqb. apply bool_decide_eq_true. Qed.

Lemma many_tokens_truthy s :
  (length (List.filter truthy (split 32 s)) <=? 1) = false -> truthy s = true.
Proof. by destruct s. Qed.

(** The two shapes of a result. *)
Lemma formatWithGroups_cases value groups :
  let collapsed := collapseWhitespace value in
  let merged :=
    collapseWhitespace (twMerge (sortedClassList localeCompare value groups)) in
  formatWithGroups localeCompare twMerge value groups = None \/
  (formatWithGroups localeCompare twMerge value groups = Some collapsed /\
   collapsed <> value) \/
  (formatWithGroups localeCompare twMerge value groups = Some merged /\
   merged <> collapsed /\
   (length (List.filter truthy (split 32 collapsed)) <=? 1) = false).
Proof.
  intros collapsed merged.
  destruct (length (List.filter truthy (split 32 collapsed)) <=? 1) eqn:Hlen.
  - rewrite formatWithGroups_few by exact Hlen. fold collapsed.
    destruct (negb (truthy collapsed)); [by left|].
    destruct (eqb collapsed value) eqn:He; [by left|].
    right. left. split; [done|]. intros Heq. apply eqb_spec in Heq. congruence.
  - rewrite (formatWithGroups_several localeCompare twMerge value groups
               collapsed _ merged eq_refl (many_tokens_truthy _ Hlen) Hlen
               eq_refl eq_refl).
    destruct (eqb merged collapsed) eqn:Hm.
    + destruct (eqb collapsed value) eqn:He; [by left|].
      right. left. split; [done|]. intros Heq. apply eqb_spec in Heq.
      congruence.
    + right. right. repeat split. intros Heq. apply eqb_spec in Heq.
      congruence.
Qed.

(** X2.  What the formatter returns.  A result other than [null] always
    differs from the value it was given, is a fixed point of
    [collapseWhitespace], and is either the collapsed value or the
    collapsed output of the resolver on the sorted class list. *)
Theorem formatWithGroups_result_differs value groups r :
  formatWithGroups localeCompare twMerge value groups = Some r ->
  r <> value /\ collapseWhitespace r = r /\
  (r = collapseWhitespace value \/
   r = collapseWhitespace
         (twMerge (sortedClassList localeCompare value groups))).
Proof.
  intros Hr.
  destruct (formatWithGroups_cases value groups)
    as [Hn|[[Hc Hne]|(Hm & Hne & _)]].
  - congruence.
  - rewrite Hc in Hr. injection Hr as <-. repeat split; [| |by left].
    + exact Hne.
    + apply collapseWhitespace_collapsed.
  - rewrite Hm in Hr. injection Hr as <-. repeat split; [| |by right].
    + intros Heq. apply Hne. rewrite <- Heq at 2.
      symmetry. apply collapseWhitespace_collapsed.
    + apply collapseWhitespace_collapsed.
Qed.

(** X3.  The sorting step.  For a locale order that compares
    consistently, the list handed to the resolver holds exactly the
    tokens of the collapsed value (a permutation, duplicates kept), in
    an order in which no token comes after a later one under the
    four-key order; in particular group weights never decrease along
    it. *)
Theorem sortedClassList_ordered groups value :
  Comparator (fun a b => signOf (localeCompare a b)) ->
  exists sorted,
    sortedClassList localeCompare value groups = join (js " ") sorted /\
    sorted ≡ₚ List.filter truthy (split 32 (collapseWhitespace value)) /\
    StronglySorted (notAfter (fourKeyOrder localeCompare groups)) sorted /\
    forall i j a b,
      i < j -> sorted !! i = Some a -> sorted !! j = Some b ->
      groupWeight (normalized a groups) <= groupWeight (normalized b groups).
Proof.
  intros Hlc. eexists. split; [reflexivity|].
  destruct (sort_compareClasses localeCompare groups
              (List.filter truthy (split 32 (collapseWhitespace value))))
    as (Hperm & Hsorted & _).
  split; [exact Hperm|]. split; [by apply Hsorted|].
  intros i j a b Hij Ha Hb. apply (fourKeyOrder_weight localeCompare).
  eapply StronglySorted_lookup; [by apply Hsorted | exact Hij | done | done].
Qed.

(** X4.  A class list that is already in order is left alone.  Classes
    without white space, joined by single spaces, in four-key order, and
    which the resolver returns unchanged, are not reformatted: the
    formatter returns [null]. *)
Theorem formatWithGroups_keeps_sorted_list groups tokens :
  Comparator (fun a b => signOf (localeCompare a b)) ->
  Forall cleanToken tokens ->
  StronglySorted (notAfter (fourKeyOrder localeCompare groups)) tokens ->
  twMerge (join (js " ") tokens) = join (js " ") tokens ->
  collapseWhitespace (join (js " ") tokens) = join (js " ") tokens /\
  formatWithGroups localeCompare twMerge (join (js " ") tokens) groups = None.
Proof.
  intros Hlc Hall Hsorted Hmerge. split.
  - by apply collapseWhitespace_join.
  - by apply formatWithGroups_sorted_clean.
Qed.

(** ** Values whose only white space is the space character *)

Lemma dropWhile_Forall (P : N -> Prop) p s :
  Forall P s -> Forall P (dropWhile p s).
Proof.
  induction 1 as [|c r Hc Hr IH]; simpl; [constructor|].
  destruct (p c); [done | by constructor].
Qed.

Lemma onlySpaces_collapse value :
  onlySpaces value -> onlySpaces (collapseWhitespace value).
Proof.
  intros Hv. unfold collapseWhitespace, trim, trimEnd, trimStart.
  assert (Ht : onlySpaces
                 (rev (dropWhile isWhiteSpace
                         (rev (dropWhile isWhiteSpace value))))).
  { apply Forall_rev, dropWhile_Forall, Forall_rev, dropWhile_Forall, Hv. }
  induction Ht as [|c r Hc Hr IH]; simpl; [constructor|].
  destruct (isWhiteSpace c) eqn:Hw.
  - constructor; [by intros _|]. by apply dropWhile_Forall.
  - constructor; [|done]. intros Hw'. congruence.
Qed.

Lemma split_onlySpaces s :
  onlySpaces s -> Forall noWhiteSpace (split 32 s).
Proof.
  induction 1 as [|c r Hc Hr IH]; simpl; [repeat constructor|].
  destruct (c =? 32)%N eqn:Hsp.
  - constructor; [constructor | done].
  - apply N.eqb_neq in Hsp.
    assert (Hnw : isWhiteSpace c = false).
    { destruct (isWhiteSpace c); [|done]. by specialize (Hc eq_refl). }
    destruct (split 32 r) as [|h t]; [repeat constructor; done|].
    apply Forall_cons in IH as [Hh Ht].
    constructor; [by constructor | done].
Qed.

Lemma tokens_clean value :
  onlySpaces value ->
  Forall cleanToken
    (List.filter truthy (split 32 (collapseWhitespace value))).
Proof.
  intros Hv. apply onlySpaces_collapse, split_onlySpaces in Hv.
  induction Hv as [|t ts Ht _ IH]; simpl; [constructor|].
  destruct t as [|c t]; simpl; [done|]. constructor; [|done]. by split.
Qed.

(** X5.  Formatting is idempotent on values whose only white space is the
    space character, for a resolver that drops classes without
    reordering them and is itself idempotent on what it returns:
    formatting the formatted value again returns [null]. *)
Theorem formatWithGroups_idempotent_on_spaces groups value :
  Comparator (fun a b => signOf (localeCompare a b)) ->
  (forall l,
      Forall cleanToken l ->
      exists l',
        l' `sublist_of` l /\
        twMerge (join (js " ") l) = join (js " ") l' /\
        twMerge (join (js " ") l') = join (js " ") l') ->
  onlySpaces value ->
  formatAgain (fun v => formatWithGroups localeCompare twMerge v groups) value
  = None.
Proof.
  intros Hlc Hresolver Hvalue. unfold formatAgain.
  pose proof (collapseWhitespace_collapsed value) as Hidem.
  cbv zeta in Hidem.
  destruct (formatWithGroups_cases value groups)
    as [Hn|[[Hc Hne]|(Hm & Hne & Hlen)]].
  - rewrite Hn. simpl. exact Hn.
  - rewrite Hc. simpl.
    destruct (formatWithGroups_cases (collapseWhitespace value) groups)
      as [Hn'|[[Hc' Hne']|(Hm' & Hne' & _)]]; [done | by rewrite Hidem in Hne' |].
    exfalso.
    (* the first pass returned the collapsed value: it was few tokens, or the
       merged string was the collapsed one *)
    destruct (length (List.filter truthy
                        (split 32 (collapseWhitespace value))) <=? 1)
      eqn:Hlen.
    + rewrite formatWithGroups_few in Hm' by (by rewrite Hidem).
      rewrite Hidem, eqb_true in Hm' by done.
      by destruct (negb _).
    + rewrite (formatWithGroups_several localeCompare twMerge value groups
                 _ _ _ eq_refl (many_tokens_truthy _ Hlen) Hlen eq_refl
                 eq_refl) in Hc.
      destruct (eqb _ (collapseWhitespace value)) eqn:Hsame.
      * apply eqb_spec in Hsame. apply Hne'. rewrite Hidem.
        unfold sortedClassList in *. rewrite Hidem. exact Hsame.
      * injection Hc as Hc. apply eqb_spec in Hc. congruence.
  - rewrite Hm. simpl.
    pose proof (tokens_clean value Hvalue) as Hclean.
    destruct (sort_compareClasses localeCompare groups
                (List.filter truthy (split 32 (collapseWhitespace value))))
      as (Hperm & Hsorted & _).
    specialize (Hsorted Hlc).
    unfold sortedClassList.
    set (sorted := fst (sort _ _ _)) in *.
    assert (Hsclean : Forall cleanToken sorted) by (by rewrite Hperm).
    destruct (Hresolver sorted Hsclean) as (l' & Hsub & -> & Hstable).
    assert (Hl' : Forall cleanToken l').
    { rewrite Forall_forall in Hsclean |- *. intros t Ht.
      apply Hsclean. by eapply elem_of_sublist. }
    rewrite collapseWhitespace_join by done.
    apply formatWithGroups_sorted_clean; try done.
    by eapply StronglySorted_sublist.
Qed.

End FormatterTheorems.

(** ** Variants and registries *)

Section Variants.
Context `{RegExpEngine}.
Import ClassProcessor.

Lemma stripVariants_cases token :
  match stripVariantsLoop (rev token) 0 [] with
  | Some b =>
      exists before,
        token = before ++ 58%N :: b /\ bracketDepth b = 0 /\
        noTopLevelColon b
  | None => noTopLevelColon token
  end.
Proof.
  pose proof (stripVariantsLoop_spec (rev token) [] noTopLevelColon_nil)
    as Hloop.
  simpl in Hloop. by rewrite rev_involutive, app_nil_r in Hloop.
Qed.

Lemma top_level_split_unique (v u before b : jsstring) :
  v ++ 58%N :: u = before ++ 58%N :: b ->
  bracketDepth u = 0 -> noTopLevelColon u ->
  bracketDepth b = 0 -> noTopLevelColon b ->
  b = u.
Proof.
  intros Heq Hu Hnu Hb Hnb.
  apply app_eq_app in Heq as [l [[-> Hl]|[-> Hl]]].
  - destruct l as [|c l]; simpl in Hl.
    + by injection Hl.
    + injection Hl as <- ->. exfalso. exact (Hnb l u eq_refl Hu).
  - destruct l as [|c l]; simpl in Hl.
    + by injection Hl.
    + injection Hl as <- ->. exfalso. exact (Hnu l b eq_refl Hb).
Qed.

(** X6.  Variant prefixes do not matter.  [stripVariants] is idempotent;
    when [u] has no colon at bracket depth 0 and its brackets close, the
    base of [v:u] is [u] for every prefix [v], as is the base of [u]
    itself; and then [v:u] gets the group weight of [u], whatever the
    groups, when neither starts with the important mark. *)
Theorem stripVariants_ignores_prefix :
  (forall token, stripVariants (stripVariants token) = stripVariants token) /\
  (forall v u,
      bracketDepth u = 0 -> noTopLevelColon u ->
      stripVariants (v ++ 58%N :: u) = u /\ stripVariants u = u) /\
  (forall v u groups,
      bracketDepth u = 0 -> noTopLevelColon u ->
      startsWith u (js "!") = false -> startsWith v (js "!") = false ->
      v <> [] ->
      groupWeight (normalized (v ++ 58%N :: u) groups)
      = groupWeight (normalized u groups)).
Proof.
  assert (Hfixed : forall t, noTopLevelColon t -> stripVariants t = t).
  { intros t Ht. unfold stripVariants.
    pose proof (stripVariants_cases t) as Hc.
    destruct (stripVariantsLoop (rev t) 0 []) as [b|]; [|done].
    destruct Hc as (before & -> & Hb & _). exfalso. by apply (Ht before b). }
  assert (Hprefix : forall v u,
             bracketDepth u = 0 -> noTopLevelColon u ->
             stripVariants (v ++ 58%N :: u) = u).
  { intros v u Hu Hnu. unfold stripVariants.
    pose proof (stripVariants_cases (v ++ 58%N :: u)) as Hc.
    destruct (stripVariantsLoop (rev (v ++ 58%N :: u)) 0 []) as [b|].
    - destruct Hc as (before & Heq & Hb & Hnb).
      by apply (top_level_split_unique v u before b).
    - exfalso. by apply (Hc v u). }
  split; [|split].
  - intros token. apply Hfixed. unfold stripVariants.
    pose proof (stripVariants_cases token) as Hc.
    destruct (stripVariantsLoop (rev token) 0 []) as [b|]; [|done].
    by destruct Hc as (_ & _ & _ & Hnb).
  - intros v u Hu Hnu. split; [by apply Hprefix | by apply Hfixed].
  - intros v u groups Hu Hnu Hbang Hvbang Hv.
    unfold normalized, removeImportantPrefix.
    assert (Hvu : startsWith (v ++ 58%N :: u) (js "!") = false).
    { destruct v as [|c v]; [done|]. change (js "!") with [33%N] in *.
      simpl in Hvbang |- *. rewrite startsWith_nil in Hvbang |- *.
      exact Hvbang. }
    rewrite Hvu, Hbang. simpl. by rewrite Hprefix, Hfixed.
Qed.

(** ** Registries built from two lists of definitions *)

Lemma compileFrom_shift (definitions : list TailwindGroupDefinition) k :
  forall i,
    compileFrom (k + i) definitions
    = match compileFrom i definitions with
      | inl e => inl e
      | inr groups => inr (map (shiftWeight k) groups)
      end.
Proof.
  induction definitions as [|d rest IH]; intros i; simpl; [done|].
  destruct (compileMatchers (matchers d)) as [e|rs]; simpl; [done|].
  replace (S (k + i)) with (k + S i) by lia. rewrite IH.
  destruct (compileFrom (S i) rest); done.
Qed.

Lemma compileFrom_app (d1 d2 : list TailwindGroupDefinition) :
  forall i,
    compileFrom i (d1 ++ d2)
    = match compileFrom i d1 with
      | inl e => inl e
      | inr g1 =>
          match compileFrom (length d1 + i) d2 with
          | inl e => inl e
          | inr g2 => inr (g1 ++ g2)
          end
      end.
Proof.
  induction d1 as [|d rest IH]; intros i; simpl.
  - by destruct (compileFrom i d2).
  - destruct (compileMatchers (matchers d)) as [e|rs]; simpl; [done|].
    rewrite IH. replace (length rest + S i) with (S (length rest + i)) by lia.
    destruct (compileFrom (S i) rest) as [e|g1]; simpl; [done|].
    by destruct (compileFrom (S (length rest + i)) d2).
Qed.

Lemma resolveLoop_app token (g1 g2 : list (CompiledGroupDefinition RegExp)) :
  resolveLoop token (g1 ++ g2)
  = match resolveLoop token g1 with
    | Some w => Some w
    | None => resolveLoop token g2
    end.
Proof.
  induction g1 as [|g rest IH]; simpl; [done|].
  by destruct (groupMatches token g).
Qed.

Lemma resolveLoop_shift token k (gs : list (CompiledGroupDefinition RegExp)) :
  resolveLoop token (map (shiftWeight k) gs)
  = (fun w => k + w) <$> resolveLoop token gs.
Proof.
  induction gs as [|g rest IH]; simpl; [done|].
  change (groupMatches token (shiftWeight k g)) with (groupMatches token g).
  by destruct (groupMatches token g).
Qed.

(** X7.  Definitions appended to a list never change the group of a class
    that an earlier group matches.  When a list [d1 ++ d2] compiles, both
    parts compile, and the weight of a token is its weight in [d1] when a
    group of [d1] matches it, and else its weight in [d2] moved up by the
    number of groups of [d1]. *)
Theorem resolveGroupWeight_app (d1 d2 : list TailwindGroupDefinition) groups :
  compileGroupDefinitions (d1 ++ d2) = inr groups ->
  exists g1 g2,
    compileGroupDefinitions d1 = inr g1 /\
    compileGroupDefinitions d2 = inr g2 /\
    length g1 = length d1 /\
    forall token,
      resolveGroupWeight token groups
      = if resolveGroupWeight token g1 <? length g1
        then resolveGroupWeight token g1
        else length g1 + resolveGroupWeight token g2.
Proof.
  unfold compileGroupDefinitions. rewrite compileFrom_app.
  destruct (compileFrom 0 d1) as [e|g1] eqn:H1; [done|].
  rewrite (compileFrom_shift d2 (length d1) 0).
  destruct (compileFrom 0 d2) as [e|g2] eqn:H2; [done|].
  intros [= <-]. exists g1, g2.
  destruct (compileFrom_shape _ _ _ H1) as [Hlen Hw].
  repeat split; [done|]. intros token. unfold resolveGroupWeight.
  rewrite resolveLoop_app, resolveLoop_shift, length_app, length_map, <- Hlen.
  destruct (resolveLoop token g1) as [w|] eqn:Hr.
  - destruct (resolveLoop_some _ _ _ Hr) as (i & g & Hg & Hwg & _).
    rewrite <- Hwg, (lookup_weight _ _ _ Hw Hg).
    apply lookup_lt_Some in Hg. apply Nat.ltb_lt in Hg. by rewrite Hg.
  - rewrite Nat.ltb_irrefl. by destruct (resolveLoop token g2).
Qed.

End Variants.

(** ** String literals *)

Section Literals.
Import SortClasses.

Lemma slice_snoc (text : jsstring) a i c :
  a <= i -> text !! i = Some c ->
  slice text a (i + 1) = slice text a i ++ [c].
Proof.
  intros Hai Hc. unfold slice.
  replace (i + 1 - a) with (S (i - a)) by lia.
  apply take_S_r. rewrite lookup_drop. by replace (a + (i - a)) with i by lia.
Qed.

Lemma extractLoop_exact (text rest : jsstring) :
  forall i scan literals,
    rest = drop i text -> insideOk text i scan ->
    Forall (exactLiteral text) literals ->
    Forall (exactLiteral text) (extractLoop rest i scan literals).
Proof.
  induction rest as [|char rest IH]; intros i scan literals Hrest Hscan Hall;
    [done|].
  assert (Hchar : text !! i = Some char).
  { rewrite <- (Nat.add_0_r i), <- lookup_drop, <- Hrest. done. }
  assert (Hnext : rest = drop (i + 1) text).
  { rewrite <- drop_drop, <- Hrest. done. }
  simpl. destruct scan as [|quote start value prev].
  - destruct (isQuote char) eqn:Hq; apply IH; try done.
    simpl. replace (i + 1 - 1) with i by lia.
    repeat split; try done; [lia | |].
    + unfold slice. by replace (i + 1 - (i + 1)) with 0 by lia.
    + intros k Hk. lia.
  - destruct Hscan as (Hq & Hlt & Hstart & Hprev & Hvalue & Hfree).
    destruct ((char =? quote)%N && negb (prev =? 92)%N) eqn:Hclose.
    + apply andb_true_iff in Hclose as [Hcq _].
      apply N.eqb_eq in Hcq as ->.
      apply IH; [done | done |].
      apply Forall_app. split; [done|]. constructor; [|constructor].
      rewrite isQuote_quoteCharacter in Hq.
      exists quote. simpl. replace (start + 1 - 1) with start by lia.
      repeat split; try done; lia.
    + apply IH; [done | | done].
      simpl. replace (i + 1 - 1) with i by lia.
      repeat split; try done; [lia | |].
      * rewrite Hvalue. symmetry. apply slice_snoc; [lia | done].
      * intros k Hk Hkq.
        destruct (decide (k = i)) as [->|Hne]; [|apply Hfree; [lia | done]].
        rewrite Hchar in Hkq. injection Hkq as ->.
        rewrite N.eqb_refl in Hclose. simpl in Hclose.
        apply negb_false_iff, N.eqb_eq in Hclose. by rewrite Hprev, Hclose.
Qed.

(** X8.  The string literals of the fallback.  Every literal found by
    [extractStringLiterals] is delimited in the text by the same quote
    character right before its start and at its end, its value is the
    text in between, every quote of that kind inside it follows a
    backslash, and no two literals start at the same place. *)
Theorem extractStringLiterals_exact (text : jsstring) :
  Forall (exactLiteral text) (extractStringLiterals text) /\
  NoDup (map lit_start (extractStringLiterals text)).
Proof.
  split.
  - apply extractLoop_exact; [done | done | constructor].
  - apply extractLoop_distinct; constructor.
Qed.

End Literals.

(** ** Slices and occurrences *)

Section Slices.

Lemma slice_slice (text : jsstring) a b s e :
  e <= length (slice text a b) ->
  slice (slice text a b) s e = slice text (a + s) (a + e).
Proof.
  unfold slice. intros He. rewrite length_take, length_drop in He.
  rewrite skipn_firstn_comm, take_take, drop_drop.
  f_equal. lia.
Qed.

Lemma startsWith_app (s p : jsstring) :
  startsWith s p = true <-> exists r, s = p ++ r.
Proof.
  revert s. induction p as [|a p IH]; intros s; simpl.
  - rewrite startsWith_nil. split; [by exists s | done].
  - destruct s as [|b s]; [split; [done | by intros [r Hr]]|].
    simpl. rewrite andb_true_iff, N.eqb_eq, IH. split.
    + intros [-> [r ->]]. by exists r.
    + intros [r [= -> ->]]. split; [done | by exists r].
Qed.

Lemma indexOfFrom_unfold (s sub : jsstring) i :
  indexOfFrom s sub i
  = if startsWith s sub then Some i
    else match s with
         | [] => None
         | _ :: r => indexOfFrom r sub (S i)
         end.
Proof. by destruct s. Qed.

Lemma indexOfFrom_found (s sub : jsstring) i k :
  indexOfFrom s sub i = Some k ->
  i <= k /\ k - i + length sub <= length s /\
  slice s (k - i) (k - i + length sub) = sub.
Proof.
  revert i. induction s as [|c s IH]; intros i; rewrite indexOfFrom_unfold;
    destruct (startsWith _ sub) eqn:Hs; try done.
  - intros [= <-]. apply startsWith_app in Hs as [r Hr].
    symmetry in Hr. apply app_eq_nil in Hr as [-> _]. simpl.
    replace (i - i) with 0 by lia. repeat split; lia || done.
  - intros [= <-]. apply startsWith_app in Hs as [r Hr].
    replace (i - i) with 0 by lia. rewrite Hr, length_app.
    split; [lia|]. split; [lia|]. unfold slice.
    rewrite Nat.add_0_l, Nat.sub_0_r, drop_0.
    by rewrite take_app_length.
  - intros Hk. apply IH in Hk as (Hle & Hlen & Hslice).
    split; [lia|]. replace (k - i) with (S (k - S i)) by lia.
    split; [simpl; lia|]. exact Hslice.
Qed.

Lemma indexOfFrom_occurs (pre sub r : jsstring) i :
  is_Some (indexOfFrom (pre ++ sub ++ r) sub i).
Proof.
  revert i. induction pre as [|c pre IH]; intros i;
    rewrite indexOfFrom_unfold.
  - assert (Hst : startsWith ([] ++ sub ++ r) sub = true)
      by (apply startsWith_app; by exists r).
    rewrite Hst. by eexists.
  - destruct (startsWith _ sub); [by eexists|]. apply IH.
Qed.

End Slices.

(** ** The text of the emitted matches *)

Section EmittedText.
Context `{RegExpEngine}.
Import SortClasses.

Lemma innerLoop_exact target regex containerOffset text budget :
  forall lastIndex (processedRanges : gset (nat * nat)) matched emitted result,
    Forall (exactMatch text) emitted ->
    innerLoop budget target regex containerOffset text lastIndex
      processedRanges matched emitted = Some result ->
    Forall (exactMatch text) (snd result).
Proof.
  induction budget as [|budget IH];
    intros lastIndex processed matched emitted result Hall; simpl; [done|].
  destruct (exec regex target lastIndex) as [[m|] lastIndex'].
  - destruct (truthy (match0 m)); simpl; [|by apply IH].
    destruct (bool_decide _); apply IH; [done|].
    apply Forall_app. split; [done|]. constructor; [|constructor].
    split; simpl; [lia | done].
  - by intros [= <-].
Qed.

Lemma regionEmits_exact text innerRegex containerOffset closeAbs ms :
  regionEmits text innerRegex containerOffset
    (slice text containerOffset closeAbs) = Some ms ->
  Forall (exactMatch text) ms.
Proof.
  unfold regionEmits. destruct innerRegex as [regex|].
  - unfold processInnerMatches.
    destruct (innerLoop _ _ _ _ _ _ _ _ _) as [result|] eqn:Hl; [|done].
    intros [= <-]. eapply innerLoop_exact; [|exact Hl]. constructor.
  - set (container := slice text containerOffset closeAbs).
    destruct (0 <? length (extractStringLiterals container)).
    + intros [= <-]. apply Forall_map.
      assert (Hlits : Forall (exactLiteral container)
                        (extractStringLiterals container))
        by (apply extractLoop_exact; [done | done | constructor]).
      eapply Forall_impl; [exact Hlits|].
      intros lit (quote & _ & Hle & _ & Hend & Hvalue & _).
      apply lookup_lt_Some in Hend.
      split; simpl; [lia|]. rewrite Hvalue. apply slice_slice.
      fold container. lia.
    + intros [= <-]. constructor; [|constructor]. split; simpl; [lia | done].
Qed.

Lemma outerLoop_exact text outerRegex innerRegex budget :
  forall lastIndex emitted ms,
    Forall (exactMatch text) emitted ->
    outerLoop budget text outerRegex innerRegex lastIndex emitted = Some ms ->
    Forall (exactMatch text) ms.
Proof.
  induction budget as [|budget IH]; intros lastIndex emitted ms Hall; simpl;
    [done|].
  destruct (exec outerRegex text lastIndex) as [[m|] lastIndex'];
    [|by intros [= <-]].
  destruct (truthy (match0 m)); simpl; [|by apply IH].
  destruct (outerMatchEmits text innerRegex m) as [new|] eqn:Hnew; [|done].
  apply IH. apply Forall_app. split; [done|].
  unfold outerMatchEmits in Hnew.
  destruct (indexOf (match0 m) (js "(")) as [openRel|];
    [|injection Hnew as <-; constructor].
  destruct (findMatchingParenIndex text (index m + openRel)) as [closeAbs|];
    [|injection Hnew as <-; constructor].
  by eapply regionEmits_exact.
Qed.

Lemma applyRegexEntry_outerLoop text entry result :
  applyRegexEntry text entry = inr result ->
  exists outerRegex innerRegex,
    result = outerLoop (length text + 2) text outerRegex innerRegex 0 [].
Proof.
  unfold applyRegexEntry, bindThrow.
  destruct (createRegExp _) as [e|outerRegex]; [done|].
  destruct (match match entry with Single _ => None | Pair _ i => Some i end
            with Some p => _ | None => _ end) as [e|innerRegex]; [done|].
  intros [= <-]. by exists outerRegex, innerRegex.
Qed.

(** X9.  Whatever the entry and the engine, the value of every match
    handed to [onMatch] is the text of the source at the range of the
    match, and the range is not reversed. *)
Theorem applyRegexEntry_emits_text_at_range text entry ms :
  applyRegexEntry text entry = inr (Some ms) ->
  Forall (exactMatch text) ms.
Proof.
  intros (outerRegex & innerRegex & Hl)%applyRegexEntry_outerLoop.
  eapply outerLoop_exact; [|symmetry; exact Hl]. constructor.
Qed.

Lemma search_found r s tries :
  forall i0 i m, search r s tries i0 = Some (i, m) ->
                 matcher r s i = Some m /\ i < i0 + tries.
Proof.
  induction tries as [|tries IH]; intros i0 i m; simpl; [done|].
  destruct (matcher r s i0) as [m0|] eqn:Hm.
  - intros [= <- <-]. split; [done | lia].
  - intros Hs. apply IH in Hs as [Hs Hlt]. split; [done | lia].
Qed.

Lemma exec_found r s lastIndex m lastIndex' :
  exec r s lastIndex = (Some m, lastIndex') ->
  exists i ms, i <= length s /\ matcher r s i = Some ms /\
               m = toExecArray s i ms.
Proof.
  unfold exec. destruct (length s <? lastIndex) eqn:Hlen; [done|].
  apply Nat.ltb_ge in Hlen.
  destruct (search r s (S (length s - lastIndex)) lastIndex)
    as [[i ms]|] eqn:Hs; [|done].
  intros [= <- <-]. apply search_found in Hs as [Hm Hlt].
  exists i, ms. repeat split; [lia | done].
Qed.

Lemma slice_occurs (s v : jsstring) x :
  slice s x (x + length v) = v -> exists pre r, s = pre ++ v ++ r.
Proof.
  unfold slice. replace (x + length v - x) with (length v) by lia.
  intros Hv. exists (take x s), (drop (length v) (drop x s)).
  rewrite <- (take_drop x s) at 1. f_equal.
  rewrite <- (take_drop (length v) (drop x s)) at 1. by rewrite Hv.
Qed.

(** The capture of a match whose captures lie inside it occurs in the
    whole match, so [findCaptureOffset] finds it. *)
Lemma capture_found (target : jsstring) i ms :
  match group1 ms with
  | Some (a, n) => i <= a /\ a + n <= i + matchedLength ms
  | None => True
  end ->
  let innerMatch := toExecArray target i ms in
  let innerValue := default (match0 innerMatch) (match1 innerMatch) in
  let k := findCaptureOffset (match0 innerMatch) innerValue in
  k + length innerValue <= length (match0 innerMatch) /\
  slice (match0 innerMatch) k (k + length innerValue) = innerValue.
Proof.
  intros Hin innerMatch innerValue k.
  assert (Hocc : exists pre r, match0 innerMatch = pre ++ innerValue ++ r).
  { subst innerValue innerMatch. simpl. destruct (group1 ms) as [[a n]|].
    - simpl. destruct Hin as [Hia Han].
      apply (slice_occurs _ _ (a - i)). unfold slice.
      replace (a + n - a) with n by lia.
      replace (i + matchedLength ms - i) with (matchedLength ms) by lia.
      set (rest := drop a target).
      replace (a - i + length (take n rest) - (a - i))
        with (length (take n rest)) by lia.
      rewrite skipn_firstn_comm, drop_drop, take_take.
      replace (i + (a - i)) with a by lia. fold rest.
      rewrite length_take, Nat.min_l by lia.
      rewrite <- take_take, (take_ge rest (length rest)) by lia. done.
    - simpl. exists [], []. by rewrite app_nil_r. }
  destruct Hocc as (pre & r & Hocc).
  subst k. unfold findCaptureOffset, indexOf.
  destruct (indexOfFrom_occurs pre innerValue r 0) as [k Hk].
  rewrite <- Hocc in Hk. rewrite Hk.
  apply indexOfFrom_found in Hk as (_ & Hlen & Hslice).
  rewrite Nat.sub_0_r in Hlen, Hslice. done.
Qed.

Lemma innerLoop_captures target regex containerOffset text closeAbs budget :
  target = slice text containerOffset closeAbs ->
  capturesInside regex target ->
  let emittedOk m :=
    exists lastIndex innerMatch lastIndex',
      exec regex target lastIndex = (Some innerMatch, lastIndex') /\
      match0 innerMatch <> [] /\
      emittedFor containerOffset innerMatch m in
  forall lastIndex (processedRanges : gset (nat * nat)) matched emitted result,
    Forall emittedOk emitted ->
    (matched = true <-> emitted <> []) ->
    innerLoop budget target regex containerOffset text lastIndex
      processedRanges matched emitted = Some result ->
    Forall emittedOk (snd result) /\
    (fst result = true <-> snd result <> []).
Proof.
  intros Htarget Hinside emittedOk.
  induction budget as [|budget IH];
    intros lastIndex processed matched emitted result Hall Hmatched; simpl;
    [done|].
  destruct (exec regex target lastIndex) as [[m|] lastIndex'] eqn:He;
    [|by intros [= <-]].
  destruct (truthy (match0 m)) eqn:Ht; simpl; [|by apply IH].
  destruct (bool_decide _); [by apply IH|].
  apply IH.
  - apply Forall_app. split; [done|]. constructor; [|constructor].
    exists lastIndex, m, lastIndex'. split; [done|].
    split; [by destruct (match0 m)|].
    destruct (exec_found _ _ _ _ _ He) as (i & ms & Hi & Hm & ->).
    destruct (capture_found target i ms (Hinside i ms Hi Hm))
      as [Hlen Hslice].
    set (innerMatch := toExecArray target i ms) in *.
    set (innerValue := default (match0 innerMatch) (match1 innerMatch)) in *.
    set (k := findCaptureOffset (match0 innerMatch) innerValue) in *.
    assert (Hfull : length (match0 innerMatch) <= length target - i).
    { subst innerMatch. simpl. unfold slice.
      rewrite length_take, length_drop. lia. }
    assert (Hvalue : slice text (containerOffset + (index innerMatch + k))
                       (containerOffset + (index innerMatch + k)
                        + length innerValue) = innerValue).
    { change (index innerMatch) with i.
      replace (containerOffset + (i + k) + length innerValue)
        with (containerOffset + (i + (k + length innerValue))) by lia.
      pose proof (slice_slice text containerOffset closeAbs (i + k)
                    (i + (k + length innerValue))) as Hin.
      rewrite <- Htarget in Hin. rewrite <- Hin by lia.
      pose proof (slice_slice target i (i + matchedLength ms) k
                    (k + length innerValue)) as Hin'.
      change (slice target i (i + matchedLength ms))
        with (match0 innerMatch) in Hin'.
      rewrite <- Hin' by lia. exact Hslice. }
    unfold emittedFor. cbn [range value fst snd]. rewrite Hvalue.
    repeat split; lia.
  - split; [intros _; by destruct emitted | done].
Qed.

(** X10.  The inner expression.  When the captures of the inner
    expression lie inside the matches they belong to, every match emitted
    for a region comes from a non-empty result of [exec] on the region:
    its value is the capture of that result (the whole match when there
    is none) and its range lies inside that match; and the function
    returns [true] exactly when it emitted something. *)
Theorem processInnerMatches_emits_captures
    target regex containerOffset text closeAbs matched ms :
  target = slice text containerOffset closeAbs ->
  capturesInside regex target ->
  processInnerMatches target regex containerOffset text = Some (matched, ms) ->
  Forall (fun m =>
            exists lastIndex innerMatch lastIndex',
              exec regex target lastIndex = (Some innerMatch, lastIndex') /\
              match0 innerMatch <> [] /\
              emittedFor containerOffset innerMatch m) ms /\
  (matched = true <-> ms <> []).
Proof.
  intros Htarget Hinside Hp.
  eapply (innerLoop_captures _ _ _ _ _ _ Htarget Hinside) in Hp;
    [exact Hp | constructor | done].
Qed.

End EmittedText.

(** ** Reports *)

Section Reports.
Import Rule.
Variable formatClassList : jsstring -> option jsstring.

(** [handleLiteralValue] either leaves the state alone or reports
    [range], new to the set, with a fix that is not empty and differs
    from [value]. *)
Lemma handleLiteralValue_cases range value st :
  handleLiteralValue formatClassList range value st = st \/
  exists formatted,
    formatClassList value = Some formatted /\
    formatted <> [] /\ formatted <> value /\
    (range ∉ reportedRanges st) /\
    handleLiteralValue formatClassList range value st
    = {| reportedRanges := {[ range ]} ∪ reportedRanges st;
         reports := reports st
                    ++ [{| reportRange := range; fixText := formatted |}] |}.
Proof.
  unfold handleLiteralValue.
  destruct (formatClassList value) as [formatted|]; [|by left].
  destruct (truthy formatted) eqn:Ht; simpl; [|by left].
  unfold eqb. destruct (bool_decide_reflect (formatted = value)); [by left|].
  destruct (bool_decide_reflect (range ∈ reportedRanges st)); [by left|].
  right. exists formatted. repeat split; try done. by destruct formatted.
Qed.

Lemma handleLiteralValue_ok range value st :
  stateOk st -> stateOk (handleLiteralValue formatClassList range value st).
Proof.
  intros (Hnd & Hset & Hfix).
  destruct (handleLiteralValue_cases range value st)
    as [->|(formatted & _ & Hne & _ & Hnew & ->)]; [done|].
  unfold stateOk. simpl. rewrite map_app. simpl. repeat split.
  - apply NoDup_app. split; [done|]. split; [|apply NoDup_singleton].
    intros r Hr ->%list_elem_of_singleton. by apply Hnew, Hset.
  - intros Hr. apply elem_of_app.
    apply elem_of_union in Hr as [->%elem_of_singleton|Hr].
    + right. by apply list_elem_of_singleton.
    + left. by apply Hset.
  - intros [Hr| ->%list_elem_of_singleton]%elem_of_app.
    + apply elem_of_union_r. by apply Hset.
    + apply elem_of_union_l. by apply elem_of_singleton.
  - apply Forall_app. split; [done|]. by constructor.
Qed.

Lemma handleLiteralValue_grows range value st :
  reportedRanges st
  ⊆ reportedRanges (handleLiteralValue formatClassList range value st).
Proof.
  destruct (handleLiteralValue_cases range value st)
    as [->|(formatted & _ & _ & _ & _ & ->)]; [done|].
  simpl. apply union_subseteq_r.
Qed.

(** Whatever [handleLiteralValue] did for a range and value, it does
    nothing for them in a state that knows the ranges it left. *)
Lemma handleLiteralValue_settled range value st st2 :
  reportedRanges (handleLiteralValue formatClassList range value st)
  ⊆ reportedRanges st2 ->
  handleLiteralValue formatClassList range value st2 = st2.
Proof.
  intros Hsub.
  destruct (handleLiteralValue_cases range value st2)
    as [->|(formatted & Hf & Hne & Hdiff & Hnew & _)]; [done|].
  exfalso. apply Hnew, Hsub.
  destruct (handleLiteralValue_cases range value st)
    as [Hsame|(formatted' & _ & _ & _ & _ & ->)].
  - unfold handleLiteralValue in Hsame |- *. rewrite Hf in Hsame |- *.
    destruct formatted as [|c formatted]; [done|]. simpl in Hsame |- *.
    unfold eqb in Hsame |- *. rewrite bool_decide_false in Hsame |- * by done.
    destruct (bool_decide_reflect (range ∈ reportedRanges st)) as [Hin|Hout];
      [done|].
    exfalso. apply (f_equal reports) in Hsame. simpl in Hsame.
    apply (f_equal length) in Hsame. rewrite length_app in Hsame.
    simpl in Hsame. lia.
  - simpl. apply elem_of_union_l. by apply elem_of_singleton.
Qed.

Lemma handleMatches_ok matches :
  forall st, stateOk st -> stateOk (handleMatches formatClassList matches st).
Proof.
  induction matches as [|m matches IH]; intros st Hok; [done|].
  apply IH. by apply handleLiteralValue_ok.
Qed.

Lemma handleMatches_grows matches :
  forall st,
    reportedRanges st
    ⊆ reportedRanges (handleMatches formatClassList matches st).
Proof.
  induction matches as [|m matches IH]; intros st; [done|].
  etrans; [apply handleLiteralValue_grows | apply IH].
Qed.

Lemma handleMatches_settled matches :
  forall st st2,
    reportedRanges (handleMatches formatClassList matches st)
    ⊆ reportedRanges st2 ->
    handleMatches formatClassList matches st2 = st2.
Proof.
  induction matches as [|m matches IH]; intros st st2 Hsub; [done|].
  simpl. rewrite (handleLiteralValue_settled _ _ st).
  - by eapply IH.
  - etrans; [apply handleMatches_grows | exact Hsub].
Qed.

Lemma handleMatches_new text matches :
  Forall (exactMatch text) matches ->
  forall st, exists new,
    reports (handleMatches formatClassList matches st) = reports st ++ new /\
    Forall (properReport text formatClassList) new.
Proof.
  induction 1 as [|m matches [_ Hm] _ IH]; intros st.
  - exists []. by rewrite app_nil_r.
  - simpl.
    destruct (IH (handleLiteralValue formatClassList (range m) (value m) st))
      as (new & -> & Hnew).
    destruct (handleLiteralValue_cases (range m) (value m) st)
      as [->|(formatted & Hf & Hne & Hdiff & _ & ->)]; [by exists new|].
    simpl. eexists. rewrite <- app_assoc. split; [done|].
    constructor; [|done].
    unfold properReport. simpl. by rewrite <- Hm.
Qed.

Context `{RegExpEngine}.

Lemma applyEntries_ok text classRegex :
  forall st result,
    stateOk st ->
    applyEntries text classRegex formatClassList st = result ->
    fst result <> OutOfBudget /\ stateOk (snd result) /\
    exists new, reports (snd result) = reports st ++ new /\
                Forall (properReport text formatClassList) new.
Proof.
  induction classRegex as [|entry rest IH]; intros st result Hok <-; simpl.
  - split; [done|]. split; [done|]. exists []. by rewrite app_nil_r.
  - destruct (SortClasses.applyRegexEntry text entry) as [e|[ms|]] eqn:Hentry.
    + split; [done|]. split; [done|]. exists []. by rewrite app_nil_r.
    + destruct (IH (handleMatches formatClassList ms st) _
                  (handleMatches_ok ms st Hok) eq_refl)
        as (Hout & Hok' & new' & Hreports & Hnew').
      apply applyRegexEntry_outerLoop in Hentry
        as (outerRegex & innerRegex & Hl).
      destruct (handleMatches_new text ms) with (st := st)
        as (new & Hms & Hnew).
      { eapply outerLoop_exact; [|symmetry; exact Hl]. constructor. }
      split; [done|]. split; [done|].
      exists (new ++ new'). rewrite Hreports, Hms, <- app_assoc.
      split; [done|]. by apply Forall_app.
    + by apply applyRegexEntry_total in Hentry.
Qed.

Lemma applyEntries_settled text classRegex :
  forall st st2,
    reportedRanges (snd (applyEntries text classRegex formatClassList st))
    ⊆ reportedRanges st2 ->
    applyEntries text classRegex formatClassList st2
    = (fst (applyEntries text classRegex formatClassList st), st2).
Proof.
  induction classRegex as [|entry rest IH]; intros st st2; simpl; [done|].
  destruct (SortClasses.applyRegexEntry text entry) as [e|[ms|]]; try done.
  intros Hsub. rewrite (handleMatches_settled ms st).
  - by apply IH.
  - etrans; [|exact Hsub]. clear.
    generalize (handleMatches formatClassList ms st) as st1.
    induction rest as [|entry' rest IH]; intros st1; simpl; [done|].
    destruct (SortClasses.applyRegexEntry text entry') as [e|[ms'|]];
      try done.
    etrans; [apply handleMatches_grows | apply IH].
Qed.

(** X11.  Reports.  Both ways in which the rule reports, a visited
    literal and a pass over [classRegex], keep the reports sound: no
    range is reported twice, the set of reported ranges is the set of
    ranges of the reports, and no fix is empty.  A pass never runs out
    of iterations, it only adds reports, and each report it adds
    replaces the text at its range by what the formatter returns for
    that text, which differs from it. *)
Theorem rule_reports_each_range_once text classRegex range rawValue st :
  stateOk st ->
  stateOk (visitLiteralRange formatClassList range rawValue st) /\
  let result := applyEntries text classRegex formatClassList st in
  fst result <> OutOfBudget /\ stateOk (snd result) /\
  exists new, reports (snd result) = reports st ++ new /\
              Forall (properReport text formatClassList) new.
Proof.
  intros Hok. split.
  - unfold visitLiteralRange. destruct rawValue as [v|]; [|done].
    destruct (truthy v); [|done]. by apply handleLiteralValue_ok.
  - intros result. by apply (applyEntries_ok text classRegex st).
Qed.

(** X12.  Running the pass over [classRegex] again, as [VElement:exit]
    does for every element, ends the same way and reports nothing more. *)
Theorem second_pass_reports_nothing text classRegex st :
  let result := applyEntries text classRegex formatClassList st in
  applyEntries text classRegex formatClassList (snd result) = result.
Proof.
  intros result. rewrite (applyEntries_settled text classRegex st) by done.
  subst result. by destruct (applyEntries _ _ _ _).
Qed.

End Reports.

(** ** The order of the literals *)

Section LiteralOrder.
Import SortClasses.

Lemma StronglySorted_snoc {A} (R : A -> A -> Prop) (l : list A) x :
  StronglySorted R l -> Forall (fun a => R a x) l ->
  StronglySorted R (l ++ [x]).
Proof.
  intros Hl Hx. apply StronglySorted_app_2; [|done|].
  - intros a b Ha ->%list_elem_of_singleton.
    rewrite Forall_forall in Hx. by apply Hx.
  - repeat constructor.
Qed.

Lemma extractLoop_ordered (rest : jsstring) :
  forall i scan literals,
    StronglySorted literalBefore literals ->
    match scan with
    | Between => Forall (fun l => lit_end l < i) literals
    | Inside _ start _ _ =>
        start < i /\ Forall (fun l => lit_end l < start) literals
    end ->
    StronglySorted literalBefore (extractLoop rest i scan literals).
Proof.
  induction rest as [|char rest IH]; intros i scan literals Hs Hb; [done|].
  simpl. destruct scan as [|quote start value prev].
  - destruct (isQuote char); apply IH; try done.
    + split; [lia | done].
    + eapply Forall_impl; [exact Hb|]. simpl. lia.
  - destruct Hb as [Hlt Hb].
    destruct ((char =? quote)%N && negb (prev =? 92)%N).
    + apply IH.
      * apply StronglySorted_snoc; [done|].
        eapply Forall_impl; [exact Hb|]. unfold literalBefore. simpl. lia.
      * apply Forall_app. split.
        -- eapply Forall_impl; [exact Hb|]. simpl. lia.
        -- constructor; [simpl; lia | constructor].
    + apply IH; [done|]. split; [lia | done].
Qed.

(** X13.  The literals of the fallback come in text order and are
    disjoint: each one ends, closing quote included, before the opening
    quote of every later one, and all of them lie inside the text.  So
    the fixes of two literals of a region never overlap. *)
Theorem extractStringLiterals_in_text_order (text : jsstring) :
  StronglySorted literalBefore (extractStringLiterals text) /\
  forall i j a b,
    i < j ->
    extractStringLiterals text !! i = Some a ->
    extractStringLiterals text !! j = Some b ->
    lit_start a <= lit_end a /\ lit_end a + 2 <= lit_start b /\
    lit_start b <= lit_end b /\ lit_end b < length text.
Proof.
  assert (Hs : StronglySorted literalBefore (extractStringLiterals text))
    by (apply extractLoop_ordered; constructor).
  split; [done|]. intros i j a b Hij Ha Hb.
  assert (Hall : Forall (exactLiteral text) (extractStringLiterals text))
    by (apply extractLoop_exact; [done | done | constructor]).
  rewrite Forall_forall in Hall.
  destruct (Hall a) as (qa & _ & Hale & _); [by eapply list_elem_of_lookup_2|].
  destruct (Hall b) as (qb & _ & Hble & _ & Hbend & _);
    [by eapply list_elem_of_lookup_2|].
  apply lookup_lt_Some in Hbend.
  pose proof (StronglySorted_lookup literalBefore _ Hs i j a b Hij Ha Hb)
    as Hab.
  unfold literalBefore in Hab. lia.
Qed.

End LiteralOrder.

(** ** Ranges without an inner expression *)

Section FallbackRanges.
Context `{RegExpEngine}.
Import SortClasses.

Lemma closesAt_inside text openParenIndex i :
  closesAt text openParenIndex i -> openParenIndex < i < length text.
Proof.
  intros (Hlt & Hch & _). apply lookup_lt_Some in Hch. lia.
Qed.

Lemma regionEmits_fallback_inside text containerOffset closeAbs ms :
  containerOffset <= closeAbs -> closeAbs <= length text ->
  regionEmits text None containerOffset
    (slice text containerOffset closeAbs) = Some ms ->
  Forall (fun m => containerOffset <= fst (range m) /\
                   fst (range m) <= snd (range m) /\
                   snd (range m) <= closeAbs) ms.
Proof.
  intros Hoc Hcl. unfold regionEmits.
  set (container := slice text containerOffset closeAbs).
  assert (Hlen : length container = closeAbs - containerOffset).
  { subst container. unfold slice. rewrite length_take, length_drop. lia. }
  destruct (0 <? length (extractStringLiterals container)).
  - intros [= <-]. apply Forall_map.
    assert (Hlits : Forall (exactLiteral container)
                      (extractStringLiterals container))
      by (apply extractLoop_exact; [done | done | constructor]).
    eapply Forall_impl; [exact Hlits|].
    intros lit (quote & _ & Hle & _ & Hend & _).
    apply lookup_lt_Some in Hend. simpl. lia.
  - intros [= <-]. constructor; [|constructor]. simpl. lia.
Qed.

Lemma outerLoop_fallback_inside text outerRegex budget :
  forall lastIndex emitted ms,
    Forall (insideRegion text) emitted ->
    outerLoop budget text outerRegex None lastIndex emitted = Some ms ->
    Forall (insideRegion text) ms.
Proof.
  induction budget as [|budget IH]; intros lastIndex emitted ms Hall; simpl;
    [done|].
  destruct (exec outerRegex text lastIndex) as [[m|] lastIndex'] eqn:He;
    [|by intros [= <-]].
  destruct (truthy (match0 m)); simpl; [|by apply IH].
  destruct (outerMatchEmits text None m) as [new|] eqn:Hnew; [|done].
  apply IH. apply Forall_app. split; [done|].
  unfold outerMatchEmits in Hnew.
  pose proof (indexOfFrom_char (match0 m) 40%N 0) as Hopen.
  change (indexOfFrom (match0 m) [40%N] 0) with (indexOf (match0 m) (js "("))
    in Hopen.
  destruct (indexOf (match0 m) (js "(")) as [openRel|];
    [|injection Hnew as <-; constructor].
  destruct Hopen as (n & -> & Hch & _). simpl in Hnew.
  pose proof (findMatchingParenIndex_spec text (index m + n)) as Hclose.
  destruct (findMatchingParenIndex text (index m + n)) as [closeAbs|]
    eqn:Hfind; [|injection Hnew as <-; constructor].
  destruct Hclose as [Hclose Hfirst].
  destruct (closesAt_inside _ _ _ Hclose) as [Hlt Hin].
  apply regionEmits_fallback_inside in Hnew; [|lia|lia].
  eapply Forall_impl; [exact Hnew|].
  intros m' (H1 & H2 & H3). exists (index m + n), closeAbs.
  split; [|split; [exact Hfind|split; [exact Hclose|split; [exact Hfirst|lia]]]].
  destruct (exec_found _ _ _ _ _ He) as (i & ms' & Hi & _ & ->).
  simpl in Hch |- *. unfold slice in Hch.
  rewrite lookup_take_Some in Hch. destruct Hch as [Hch _].
  by rewrite lookup_drop in Hch.
Qed.

(** X14.  Without an inner expression, every range handed to [onMatch]
    lies between an opening parenthesis of the text and the position
    that [findMatchingParenIndex] returns for it, the first one that
    closes the parenthesis at depth 0 outside quoted regions: after the
    one and not beyond the other, which is inside the text. *)
Theorem fallback_ranges_inside_parentheses text entry ms :
  match entry with
  | Single _ => True
  | Pair _ innerPattern => innerPattern = []
  end ->
  applyRegexEntry text entry = inr (Some ms) ->
  Forall (insideRegion text) ms.
Proof.
  intros Hentry. unfold applyRegexEntry, bindThrow.
  destruct (createRegExp _) as [e|outerRegex]; [done|].
  assert (Hinner :
            match match entry with
                  | Single _ => None
                  | Pair _ i => Some i
                  end
            with
            | Some p => if truthy p
                        then bindThrow (createRegExp p)
                               (fun r => inr (Some r))
                        else inr None
            | None => inr None
            end = inr None).
  { destruct entry as [o|o i]; [done|]. by subst i. }
  unfold bindThrow in Hinner. rewrite Hinner.
  intros [= Hl]. eapply outerLoop_fallback_inside; [|exact Hl]. constructor.
Qed.

End FallbackRanges.

(** ** The formatter factory *)

Section Factory.
Context `{RegExpEngine}.
Variable localeCompare : jsstring -> jsstring -> Z.
Variable twMerge : jsstring -> jsstring.
Variable defaults : list TailwindGroupDefinition.
Import ClassProcessor.

Lemma compileMatchers_succeeds (patterns : list jsstring) rs :
  compileMatchers patterns = inr rs -> Forall validPattern patterns.
Proof.
  revert rs. induction patterns as [|p ps IH]; intros rs; simpl;
    [constructor|].
  destruct (RegExp_new p) as [e|r] eqn:Hp; [done|]. simpl.
  destruct (compileMatchers ps) as [e|rs']; [done|].
  intros _. constructor; [by exists r | by eapply IH].
Qed.

Lemma compileFrom_succeeds (definitions : list TailwindGroupDefinition) :
  forall index groups,
    compileFrom index definitions = inr groups ->
    Forall validDefinition definitions.
Proof.
  induction definitions as [|d ds IH]; intros index groups; simpl;
    [constructor|].
  destruct (compileMatchers (matchers d)) as [e|rs] eqn:Hd; [done|]. simpl.
  destruct (compileFrom (S index) ds) as [e|gs] eqn:Hds; [done|].
  intros _. constructor; [by eapply compileMatchers_succeeds | by eapply IH].
Qed.

(** X15.  Custom group definitions.  A non-empty list of definitions
    replaces the built-in table: when it compiles, all its patterns are
    valid and the formatter sorts by its groups alone; when it does not,
    some pattern is invalid, creating the formatter throws, and so does
    [formatClassString] for every value, even one that needs no
    formatting. *)
Theorem createClassFormatter_custom_definitions
    (defs : list TailwindGroupDefinition) :
  defs <> [] ->
  let config := Some {| groupDefinitions := Some defs |} in
  match compileGroupDefinitions defs with
  | inr groups =>
      Forall validDefinition defs /\
      forall value,
        formatClassString localeCompare twMerge defaults value config
        = inr (formatWithGroups localeCompare twMerge value groups)
  | inl e =>
      (~ Forall validDefinition defs) /\
      createClassFormatter localeCompare twMerge defaults config = inl e /\
      forall value,
        formatClassString localeCompare twMerge defaults value config = inl e
  end.
Proof.
  intros Hne config.
  assert (Hlen : (0 <? length defs) = true)
    by (destruct defs; [done | reflexivity]).
  unfold formatClassString, createClassFormatter, config, bindThrow.
  rewrite Hlen.
  destruct (compileGroupDefinitions defs) as [e|groups] eqn:Hc.
  - split; [|split; [reflexivity | intros value; reflexivity]].
    intros Hall.
    destruct (compileFrom_valid defs Hall 0) as (groups & Hg & _).
    unfold compileGroupDefinitions in Hc. congruence.
  - split; [|intros value; reflexivity].
    by eapply compileFrom_succeeds.
Qed.

End Factory.

(** ** The theorems at concrete inputs *)

Lemma words_run (t rest current : jsstring) :
  noWhiteSpace t ->
  Host.words (t ++ rest) current = Host.words rest (current ++ t).
Proof.
  intros Ht. revert current.
  induction Ht as [|c t Hc _ IH]; intros current; simpl.
  - by rewrite app_nil_r.
  - rewrite Hc, IH, <- app_assoc. done.
Qed.

Lemma words_join (tokens : list jsstring) :
  Forall cleanToken tokens ->
  Host.words (join (js " ") tokens) [] = tokens.
Proof.
  induction 1 as [|p tokens [Hne Hp] Hall IH]; [done|].
  destruct tokens as [|q tokens].
  - change (join (js " ") [p]) with p.
    rewrite <- (app_nil_r p) at 1. rewrite words_run by done. simpl.
    by destruct p.
  - change (join (js " ") (p :: q :: tokens))
      with (p ++ 32%N :: join (js " ") (q :: tokens)).
    rewrite words_run by done.
    change (Host.words (32%N :: ?rest) ?current)
      with (if truthy current then current :: Host.words rest []
            else Host.words rest []).
    rewrite app_nil_l. destruct p; [done|]. cbn [truthy]. by rewrite IH.
Qed.

Lemma keepAllMerge_join (tokens : list jsstring) :
  Forall cleanToken tokens ->
  Host.keepAllMerge (join (js " ") tokens) = join (js " ") tokens.
Proof. intros Hall. unfold Host.keepAllMerge. by rewrite words_join. Qed.

Lemma stateOk_create : stateOk Rule.create.
Proof.
  split; [constructor|]. split; [|constructor].
  intros r. simpl. split; [by intros ?%elem_of_empty | by intros ?%elem_of_nil].
Qed.

(** The built-in table split after its third group. *)
Lemma resolveGroupWeight_app_witness :
  exists g1 g2,
    ClassProcessor.compileGroupDefinitions (H := MiniRegExp.engine)
      (take 3 defaultGroupDefinitions) = inr g1 /\
    ClassProcessor.compileGroupDefinitions (H := MiniRegExp.engine)
      (drop 3 defaultGroupDefinitions) = inr g2 /\
    length g1 = length (take 3 defaultGroupDefinitions) /\
    forall token,
      ClassProcessor.resolveGroupWeight (H := MiniRegExp.engine) token
        Builtin.compiledGroups
      = if ClassProcessor.resolveGroupWeight (H := MiniRegExp.engine) token g1
           <? length g1
        then ClassProcessor.resolveGroupWeight (H := MiniRegExp.engine)
               token g1
        else length g1
             + ClassProcessor.resolveGroupWeight (H := MiniRegExp.engine)
                 token g2.
Proof.
  apply (resolveGroupWeight_app (H := MiniRegExp.engine)
           (take 3 defaultGroupDefinitions) (drop 3 defaultGroupDefinitions)
           Builtin.compiledGroups).
  vm_compute. reflexivity.
Defined.

(** The sorting step on the built-in groups with the code-unit order. *)
Lemma sortedClassList_ordered_witness :
  exists sorted,
    sortedClassList (H := MiniRegExp.engine) Host.codeUnitCompare
      (js "p-4 flex") Builtin.compiledGroups = join (js " ") sorted /\
    sorted ≡ₚ List.filter truthy
                (split 32 (ClassProcessor.collapseWhitespace (js "p-4 flex"))) /\
    StronglySorted
      (notAfter (fourKeyOrder (H := MiniRegExp.engine) Host.codeUnitCompare
                   Builtin.compiledGroups)) sorted /\
    forall i j a b,
      i < j -> sorted !! i = Some a -> sorted !! j = Some b ->
      groupWeight (ClassProcessor.normalized (H := MiniRegExp.engine) a
                     Builtin.compiledGroups)
      <= groupWeight (ClassProcessor.normalized (H := MiniRegExp.engine) b
                        Builtin.compiledGroups).
Proof.
  apply (sortedClassList_ordered (H := MiniRegExp.engine)
           Host.codeUnitCompare Builtin.compiledGroups (js "p-4 flex")
           codeUnitCompare_Comparator).
Defined.

(** A value that is reordered, with the resolver that keeps every
    class. *)
Lemma formatWithGroups_result_differs_witness :
  let value := js " p-4   flex " in
  let r := js "flex p-4" in
  r <> value /\ ClassProcessor.collapseWhitespace r = r /\
  (r = ClassProcessor.collapseWhitespace value \/
   r = ClassProcessor.collapseWhitespace
         (Host.keepAllMerge
            (sortedClassList (H := MiniRegExp.engine) Host.codeUnitCompare
               value Builtin.compiledGroups))).
Proof.
  apply (formatWithGroups_result_differs (H := MiniRegExp.engine)
           Host.codeUnitCompare Host.keepAllMerge (js " p-4   flex ")
           Builtin.compiledGroups (js "flex p-4")).
  vm_compute. reflexivity.
Defined.

(** Two classes in order on the built-in groups. *)
Lemma formatWithGroups_keeps_sorted_list_witness :
  let tokens := [js "flex"; js "p-4"] in
  ClassProcessor.collapseWhitespace (join (js " ") tokens)
  = join (js " ") tokens /\
  ClassProcessor.formatWithGroups (H := MiniRegExp.engine)
    Host.codeUnitCompare Host.keepAllMerge (join (js " ") tokens)
    Builtin.compiledGroups = None.
Proof.
  apply (formatWithGroups_keeps_sorted_list (H := MiniRegExp.engine)
           Host.codeUnitCompare Host.keepAllMerge Builtin.compiledGroups
           [js "flex"; js "p-4"] codeUnitCompare_Comparator).
  - repeat constructor; vm_compute; done.
  - repeat constructor; vm_compute; done.
  - vm_compute. reflexivity.
Defined.

(** The resolver that keeps every class returns clean tokens joined by
    single spaces as they are. *)
Lemma formatWithGroups_idempotent_on_spaces_witness :
  formatAgain
    (fun v => ClassProcessor.formatWithGroups (H := MiniRegExp.engine)
                Host.codeUnitCompare Host.keepAllMerge v
                Builtin.compiledGroups)
    (js " p-4   flex ") = None.
Proof.
  apply (formatWithGroups_idempotent_on_spaces (H := MiniRegExp.engine)
           Host.codeUnitCompare Host.keepAllMerge Builtin.compiledGroups
           (js " p-4   flex ") codeUnitCompare_Comparator).
  - intros l Hl. exists l. split; [done|].
    split; apply keepAllMerge_join, Hl.
  - repeat constructor; vm_compute; done.
Defined.

(** The default entry for [cn] on a call with a nested call. *)
Lemma applyRegexEntry_emits_text_at_range_witness :
  Forall (exactMatch (js "cn('b a', fn('c'))"))
    [{| range := (4, 7); value := js "b a" |};
     {| range := (14, 15); value := js "c" |}].
Proof.
  apply (applyRegexEntry_emits_text_at_range (H := MiniRegExp.engine)
           (js "cn('b a', fn('c'))")
           (Pair (js "cn\(([^)]*)\)") Builtin.STRING_ARGUMENT_REGEX)).
  vm_compute. reflexivity.
Defined.

(** [STRING_ARGUMENT_REGEX] on the region of [cn('b a', 'c')]. *)
Lemma processInnerMatches_emits_captures_witness :
  exists regex,
    @RegExp_new MiniRegExp.engine Builtin.STRING_ARGUMENT_REGEX = inr regex /\
    Forall (fun m =>
              exists lastIndex innerMatch lastIndex',
                exec regex (js "'b a', 'c'") lastIndex
                = (Some innerMatch, lastIndex') /\
                match0 innerMatch <> [] /\
                emittedFor 3 innerMatch m)
      [{| range := (4, 7); value := js "b a" |};
       {| range := (11, 12); value := js "c" |}].
Proof.
  eexists. split; [vm_compute; reflexivity|].
  apply (processInnerMatches_emits_captures (H := MiniRegExp.engine)
           (js "'b a', 'c'") _ 3 (js "cn('b a', 'c')") 13 true).
  - vm_compute. reflexivity.
  - intros i m Hi Hm.
    do 11 (destruct i as [|i];
           [vm_compute in Hm;
            first [discriminate Hm
                  | injection Hm as <-; vm_compute; lia]|]).
    vm_compute in Hi. lia.
  - vm_compute. reflexivity.
Defined.

(** A run that starts from the state of [create], with the default
    entries and the built-in formatter. *)
Lemma rule_reports_each_range_once_witness :
  let format := Builtin.format Host.codeUnitCompare Host.keepAllMerge in
  let text := js "cn('p-4 flex', 'p-4 flex')" in
  stateOk (Rule.visitLiteralRange format (4, 12) (Some (js "p-4 flex"))
             Rule.create) /\
  let result := Rule.applyEntries (H := MiniRegExp.engine) text
                  Builtin.DEFAULT_CLASS_REGEX format Rule.create in
  fst result <> Rule.OutOfBudget /\ stateOk (snd result) /\
  exists new, reports (snd result) = reports Rule.create ++ new /\
              Forall (properReport text format) new.
Proof.
  apply (rule_reports_each_range_once
           (Builtin.format Host.codeUnitCompare Host.keepAllMerge)
           (H := MiniRegExp.engine)).
  apply stateOk_create.
Defined.

(** One custom group with a valid pattern. *)
Lemma createClassFormatter_custom_definitions_witness :
  let defs := [group "mine" ["^p-"]]%string in
  let config := Some {| groupDefinitions := Some defs |} in
  match ClassProcessor.compileGroupDefinitions (H := MiniRegExp.engine) defs
  with
  | inr groups =>
      Forall (validDefinition (H := MiniRegExp.engine)) defs /\
      forall value,
        ClassProcessor.formatClassString (H := MiniRegExp.engine)
          Host.codeUnitCompare Host.keepAllMerge defaultGroupDefinitions
          value config
        = inr (ClassProcessor.formatWithGroups Host.codeUnitCompare
                 Host.keepAllMerge value groups)
  | inl e =>
      (~ Forall (validDefinition (H := MiniRegExp.engine)) defs) /\
      ClassProcessor.createClassFormatter (H := MiniRegExp.engine)
        Host.codeUnitCompare Host.keepAllMerge defaultGroupDefinitions config
      = inl e /\
      forall value,
        ClassProcessor.formatClassString (H := MiniRegExp.engine)
          Host.codeUnitCompare Host.keepAllMerge defaultGroupDefinitions
          value config = inl e
  end.
Proof.
  apply (createClassFormatter_custom_definitions (H := MiniRegExp.engine)
           Host.codeUnitCompare Host.keepAllMerge defaultGroupDefinitions
           [group "mine" ["^p-"]]%string).
  done.
Defined.

(** An entry without inner expression on a call with a nested call. *)
Lemma fallback_ranges_inside_parentheses_witness :
  Forall (insideRegion (js "cn(fn('a b'), 'c')"))
    [{| range := (7, 10); value := js "a b" |};
     {| range := (15, 16); value := js "c" |}].
Proof.
  apply (fallback_ranges_inside_parentheses (H := MiniRegExp.engine)
           (js "cn(fn('a b'), 'c')") (Single (js "cn\("))).
  - exact I.
  - vm_compute. reflexivity.
Defined.
